(** * Hole normal-map generator (tools/generate_hole_normal.py)

    A shallow embedding of [generate_normal_map] and the properties of its
    per-pixel normal formula.

    Modelling conventions.
    - Python floats are read as mathematical reals: every arithmetic
      operation is exact.  Rounding error of binary64, infinities and NaN
      are outside this development.
    - A float division whose divisor is zero raises [ZeroDivisionError];
      the generator therefore returns a [result].
    - [random.random()] reads a process-wide generator.  The sequence of
      values it returns is an explicit argument [rng : nat -> R] and the
      number of draws consumed so far is part of the loop state.
    - The PIL image is its size plus a finite map from coordinates to RGBA
      tuples; a coordinate never written reads as transparent black.
    - [size] is a natural number: negative sizes, which [Image.new]
      rejects, are left out. *)

From Stdlib Require Import Reals ZArith List Lia Lra Psatz.
From stdpp Require Import gmap strings.

Open Scope R_scope.

(** ** Exceptions *)

Inductive exn : Set := ZeroDivisionError.

Inductive result (A : Type) : Type :=
| Ok (a : A)
| Raise (e : exn).
Arguments Ok {A} a.
Arguments Raise {A} e.

Definition bind {A B : Type} (m : result A) (f : A -> result B) : result B :=
  match m with
  | Ok a => f a
  | Raise e => Raise e
  end.

Notation "'try' x ':=' m 'in' k" := (bind m (fun x => k))
  (at level 10, x name, m at level 100, k at level 200).

(** ** Float primitives used by the script *)

(** [a / b] on floats. *)
Definition fdiv (a b : R) : result R :=
  if Req_dec_T b 0 then Raise ZeroDivisionError else Ok (a / b).

(** [math.pow(x, y)] for [0 <= x] and [0 < y], the only way the script
    calls it ([dist2] is a sum of two squares and [p = 1.5]).  Python gives
    [math.pow(0.0, 1.5) = 0.0]. *)
Definition math_pow (x y : R) : R :=
  if Req_dec_T x 0 then 0 else Rpower x y.

(** [int(x)]: truncation toward zero. *)
Definition py_int (x : R) : Z :=
  if Rle_dec 0 x then Zfloor x else Zceil x.

(** ** Vectors *)

Definition vec : Type := R * R * R.

Definition vnorm (v : vec) : R :=
  let '(vx, vy, vz) := v in sqrt (vx * vx + vy * vy + vz * vz).

(** The squared length, the argument of the square root above. *)
Definition sumsq (v : vec) : R :=
  let '(vx, vy, vz) := v in vx * vx + vy * vy + vz * vz.

(** Lines 36-40 and again 48-52: divide by the length unless it is tiny. *)
Definition normalize (v : vec) : vec :=
  let '(vx, vy, vz) := v in
  let vlen := vnorm v in
  if Rgt_dec vlen 1e-6 then (vx / vlen, vy / vlen, vz / vlen) else v.

(** ** Per-pixel formula *)

Definition clamp_strength (strength : R) : R := Rmax 0 (Rmin 1 strength).

Definition groove_inner (strength dist2 : R) : R :=
  let p := 1.5 in
  let k := clamp_strength strength in
  Rmax 0 (1 - math_pow dist2 p * k).

(** Lines 27-35: the vector before its first normalisation. *)
Definition raw_vector (strength dx dy : R) : vec :=
  let dist2 := dx * dx + dy * dy in
  let k := clamp_strength strength in
  let inner := groove_inner strength dist2 in
  let dz := sqrt inner in
  (dx * k, dy * k, dz).

(** Lines 22-42: the vector handed to the noise step. *)
Definition pre_noise (strength dx dy : R) : vec :=
  let dist2 := dx * dx + dy * dy in
  if Rle_dec dist2 1 then normalize (raw_vector strength dx dy)
  else (0, 0, 1).

(** Lines 45-47; [u1] and [u2] are the two values [random.random()]
    returned. *)
Definition add_noise (noise_scale : R) (v : vec) (u1 u2 : R) : vec :=
  let '(vx, vy, vz) := v in
  let nx := vx + (u1 - 0.5) * noise_scale in
  let ny := vy + (u2 - 0.5) * noise_scale in
  let nz := vz in
  (nx, ny, nz).

(** Lines 22-52: the normal that gets encoded. *)
Definition final_normal (strength noise_scale dx dy u1 u2 : R) : vec :=
  normalize (add_noise noise_scale (pre_noise strength dx dy) u1 u2).

Definition pixel : Type := (Z * Z * Z * Z)%type.

Definition encode_channel (c : R) : Z := py_int ((c * 0.5 + 0.5) * 255).

(** Lines 55-58. *)
Definition encode (n : vec) : pixel :=
  let '(nx, ny, nz) := n in
  let r := encode_channel nx in
  let g := encode_channel ny in
  let b := encode_channel nz in
  let a := 255%Z in
  (r, g, b, a).

Definition shade (strength noise_scale dx dy u1 u2 : R) : pixel :=
  encode (final_normal strength noise_scale dx dy u1 u2).

(** ** The image and the two loops *)

Record Image : Type := mkImage {
  width : nat;
  height : nat;
  data : gmap (nat * nat) pixel
}.

(** [Image.new('RGBA', (w, h))] *)
Definition Image_new (w h : nat) : Image := mkImage w h ∅.

Definition getpixel (img : Image) (x y : nat) : pixel :=
  default (0, 0, 0, 0)%Z (data img !! (x, y)).

(** Loop state: the pixel-access object [px] and the number of values
    already taken from the random source. *)
Record state : Type := mkState {
  px : gmap (nat * nat) pixel;
  drawn : nat
}.

(** [random.random()] *)
Definition random (rng : nat -> R) (st : state) : R * state :=
  (rng (drawn st), mkState (px st) (S (drawn st))).

(** [px[x, y] = v] *)
Definition px_set (x y : nat) (v : pixel) (st : state) : state :=
  mkState (<[(x, y) := v]> (px st)) (drawn st).

(** [for a in l: body], stopping at the first exception. *)
Fixpoint for_each {A S : Type} (l : list A) (body : A -> S -> result S)
    (s : S) : result S :=
  match l with
  | [] => Ok s
  | a :: l' => try s' := body a s in for_each l' body s'
  end.

(** [range(n)] *)
Definition range (n : nat) : list nat := seq 0 n.

Section Generator.
Variables (size : nat) (strength noise_scale : R) (rng : nat -> R).

(** Lines 10-13, with [w = h = size]. *)
Definition cx : R := (INR size - 1) / 2.0.
Definition cy : R := (INR size - 1) / 2.0.
Definition radius : R := Rmin cx cy * 0.95.

(** Lines 20-59, one iteration of the inner loop. *)
Definition pixel_body (y x : nat) (st : state) : result state :=
  try dx := fdiv (INR x - cx) radius in
  try dy := fdiv (INR y - cy) radius in
  let v := pre_noise strength dx dy in
  let '(u1, st) := random rng st in
  let '(u2, st) := random rng st in
  let n := normalize (add_noise noise_scale v u1 u2) in
  Ok (px_set x y (encode n) st).

Definition row_body (y : nat) (st : state) : result state :=
  let w := size in
  for_each (range w) (pixel_body y) st.

Definition generate_normal_map : result Image :=
  let w := size in
  let h := size in
  let img := Image_new w h in
  try st := for_each (range h) row_body (mkState (data img) 0) in
  Ok (mkImage (width img) (height img) (px st)).

(** Normalised coordinates of a pixel, once [radius] is known to be
    non-zero. *)
Definition pixel_dx (x : nat) : R := (INR x - cx) / radius.
Definition pixel_dy (y : nat) : R := (INR y - cy) / radius.
Definition pixel_dist2 (x y : nat) : R :=
  pixel_dx x * pixel_dx x + pixel_dy y * pixel_dy y.

(** Index of the first of the two draws used for pixel [(x, y)]: pixels
    are visited row by row and each takes two values. *)
Definition draw_index (x y : nat) : nat := (2 * (y * size + x))%nat.

(** What the loop body stores at [(x, y)] when the next unread value of
    the random source is number [n]. *)
Definition shade_at (x y n : nat) : pixel :=
  shade strength noise_scale (pixel_dx x) (pixel_dy y) (rng n) (rng (S n)).
End Generator.

(** ** Decoding, as a reader of the texture does it *)

Definition decode_channel (c : Z) : R := IZR c / 255 * 2 - 1.

Definition decode (p : pixel) : vec :=
  let '(r, g, b, _) := p in
  (decode_channel r, decode_channel g, decode_channel b).

Definition alpha (p : pixel) : Z := let '(_, _, _, a) := p in a.

(** The flat normal [(0, 0, 1)] after encoding. *)
Definition flat_pixel : pixel := (127, 127, 255, 255)%Z.

(** ** Names for the per-pixel vectors of a run *)

(** The vector handed to the noise step at pixel [(x, y)]. *)
Definition pixel_pre_noise (size : nat) (strength : R) (x y : nat) : vec :=
  pre_noise strength (pixel_dx size x) (pixel_dy size y).

(** The vector that is encoded at pixel [(x, y)]. *)
Definition pixel_final_normal (size : nat) (strength noise_scale : R)
    (rng : nat -> R) (x y : nat) : vec :=
  final_normal strength noise_scale (pixel_dx size x) (pixel_dy size y)
    (rng (draw_index size x y)) (rng (S (draw_index size x y))).

(** ** The encoding as documented *)

(** "[z = round(v)]" as the documentation words the encoding: [z] is an
    integer nearest to [v] (either neighbour is accepted on a tie). *)
Definition rounds_to (v : R) (z : Z) : Prop := Rabs (IZR z - v) <= 1 / 2.

(** The encoding as documented: each channel the rounded scaled component,
    alpha 255. *)
Definition rounded_encoding (n : vec) (p : pixel) : Prop :=
  let '(nx, ny, nz) := n in
  let '(r, g, b, a) := p in
  rounds_to ((nx * 0.5 + 0.5) * 255) r /\
  rounds_to ((ny * 0.5 + 0.5) * 255) g /\
  rounds_to ((nz * 0.5 + 0.5) * 255) b /\
  a = 255%Z.

(** A random source whose first value is 17/24 and every later one 1/2. *)
Definition rng_17_24 (n : nat) : R :=
  match n with
  | O => 17 / 24
  | S _ => 1 / 2
  end.

(** ** The loops on their own and the script entry point *)

(** Lines 15-59 without the final [return]: the state the two loops leave
    behind, pixel store and number of values taken from the random source. *)
Definition run_loops (size : nat) (strength noise_scale : R)
    (rng : nat -> R) : result state :=
  let w := size in
  let h := size in
  let img := Image_new w h in
  for_each (range h) (row_body size strength noise_scale rng)
    (mkState (data img) 0).

(** What the script can touch outside itself: the files of the working
    directory, each identified with the image it decodes to (the format
    is lossless), and the lines written to standard output.  Failures of
    the file system are not modelled. *)
Record world : Type := mkWorld {
  files : gmap string Image;
  stdout : list string
}.

(** [img.save(name)] *)
Definition Image_save (img : Image) (name : string) (w : world) : world :=
  mkWorld (<[name := img]> (files w)) (stdout w).

(** [print(line)] *)
Definition print (line : string) (w : world) : world :=
  mkWorld (files w) (stdout w ++ [line]).

(** Lines 63-66. *)
Definition main (rng : nat -> R) (w : world) : result world :=
  try img := generate_normal_map 512 0.6 0.02 rng in
  let w := Image_save img "HoleNormal.png"%string w in
  let w := print "Saved HoleNormal.png"%string w in
  Ok w.

(** ** Vocabulary for the symmetry statements *)

Definition swap_xy (v : vec) : vec := let '(vx, vy, vz) := v in (vy, vx, vz).

Definition neg_x (v : vec) : vec := let '(vx, vy, vz) := v in (- vx, vy, vz).

Definition swap_rg (p : pixel) : pixel :=
  let '(r, g, b, a) := p in (g, r, b, a).

(** A random source that returns 0 and 1/2 in turn. *)
Definition rng_alternating (n : nat) : R :=
  if Nat.even n then 0 else 1 / 2.

(** * Properties *)

(** ** Loops *)

Section Loops.
Variables (size : nat) (strength noise_scale : R) (rng : nat -> R).

Local Abbreviation pixel_value := (shade_at size strength noise_scale rng).

Lemma radius_eq : radius size = (INR size - 1) / 2 * 0.95.
Proof. unfold radius, cx, cy. rewrite Rmin_left by lra. lra. Qed.

Lemma radius_zero_iff : radius size = 0 <-> size = 1%nat.
Proof.
  rewrite radius_eq. split.
  - intros H. apply INR_eq. simpl. lra.
  - intros ->. simpl. lra.
Qed.

Lemma pixel_body_ok y x st :
  size <> 1%nat ->
  pixel_body size strength noise_scale rng y x st =
    Ok (mkState (<[(x, y) := pixel_value x y (drawn st)]> (px st))
                (S (S (drawn st)))).
Proof.
  intros Hs. unfold pixel_body, fdiv.
  destruct (Req_dec_T (radius size) 0) as [E|_].
  - apply radius_zero_iff in E. contradiction.
  - reflexivity.
Qed.

Lemma pixel_body_raise y x st :
  size = 1%nat ->
  pixel_body size strength noise_scale rng y x st = Raise ZeroDivisionError.
Proof.
  intros Hs. unfold pixel_body, fdiv.
  destruct (Req_dec_T (radius size) 0) as [_|N].
  - reflexivity.
  - exfalso. apply N, radius_zero_iff, Hs.
Qed.

(** The inner loop over columns [a .. a+n-1] of row [y]. *)
Lemma row_loop y n : forall a st,
  size <> 1%nat ->
  exists st',
    for_each (seq a n) (pixel_body size strength noise_scale rng y) st
      = Ok st' /\
    drawn st' = (drawn st + 2 * n)%nat /\
    (forall x y',
       px st' !! (x, y') =
         if decide (y' = y /\ (a <= x < a + n)%nat)
         then Some (pixel_value x y (drawn st + 2 * (x - a))%nat)
         else px st !! (x, y')).
Proof.
  induction n as [|n IH]; intros a st Hs.
  - exists st. split; [reflexivity|]. split; [simpl; lia|].
    intros x y'. destruct (decide _) as [[_ H]|_]; [lia|reflexivity].
  - cbn [seq for_each]. rewrite pixel_body_ok by assumption. cbn [bind].
    destruct (IH (S a) (mkState (<[(a, y) := pixel_value a y (drawn st)]> (px st))
                                (S (S (drawn st)))) Hs)
      as (st' & Hrun & Hd & Hpx).
    exists st'. split; [exact Hrun|]. cbn [drawn px] in Hd, Hpx.
    split; [lia|].
    intros x y'. rewrite Hpx.
    destruct (decide (y' = y /\ (S a <= x < S a + n)%nat)) as [[-> H]|N].
    + rewrite decide_True by (split; [reflexivity|lia]).
      do 2 f_equal. lia.
    + destruct (decide ((a, y) = (x, y'))) as [E|NE].
      * inversion E; subst. rewrite lookup_insert_eq.
        rewrite decide_True by (split; [reflexivity|lia]).
        do 2 f_equal. lia.
      * rewrite lookup_insert_ne by exact NE.
        destruct (decide (y' = y /\ (a <= x < a + S n)%nat)) as [[-> H]|_];
          [|reflexivity].
        exfalso. destruct (Nat.eq_dec a x) as [->|]; [congruence|].
        apply N. split; [reflexivity|lia].
Qed.

(** The outer loop over rows [b .. b+m-1]. *)
Lemma rows_loop m : forall b st,
  size <> 1%nat ->
  exists st',
    for_each (seq b m) (row_body size strength noise_scale rng) st
      = Ok st' /\
    drawn st' = (drawn st + 2 * (m * size))%nat /\
    (forall x y,
       px st' !! (x, y) =
         if decide ((x < size)%nat /\ (b <= y < b + m)%nat)
         then Some (pixel_value x y
                      (drawn st + 2 * ((y - b) * size + x))%nat)
         else px st !! (x, y)).
Proof.
  induction m as [|m IH]; intros b st Hs.
  - exists st. split; [reflexivity|]. split; [simpl; lia|].
    intros x y. destruct (decide _) as [[_ H]|_]; [lia|reflexivity].
  - cbn [seq for_each]. unfold row_body at 1, range.
    destruct (row_loop b size 0%nat st Hs) as (st1 & Hrun1 & Hd1 & Hpx1).
    rewrite Hrun1. cbn [bind].
    destruct (IH (S b) st1 Hs) as (st' & Hrun & Hd & Hpx).
    exists st'. split; [exact Hrun|]. split; [lia|].
    intros x y. rewrite Hpx, Hpx1, Hd1.
    destruct (decide ((x < size)%nat /\ (S b <= y < S b + m)%nat))
      as [[Hx Hy]|N].
    + rewrite decide_True by lia. do 2 f_equal. nia.
    + destruct (decide (y = b /\ (0 <= x < 0 + size)%nat)) as [[-> Hx]|N'].
      * rewrite decide_True by lia. do 2 f_equal. nia.
      * rewrite decide_False by lia. reflexivity.
Qed.

(** A canvas is produced for every size but 1, and each of its pixels
    is [shade] at that pixel's coordinates and its own two draws. *)
Lemma generate_ok :
  size <> 1%nat ->
  exists img,
    generate_normal_map size strength noise_scale rng = Ok img /\
    width img = size /\ height img = size /\
    (forall x y, (x < size)%nat -> (y < size)%nat ->
       data img !! (x, y) = Some (pixel_value x y (draw_index size x y))).
Proof.
  intros Hs. unfold generate_normal_map, range.
  destruct (rows_loop size 0%nat (mkState (data (Image_new size size)) 0) Hs)
    as (st' & Hrun & _ & Hpx).
  rewrite Hrun. cbn [bind]. eexists. split; [reflexivity|].
  cbn [width height data Image_new]. do 2 (split; [reflexivity|]).
  intros x y Hx Hy. rewrite Hpx, decide_True by lia.
  cbn [drawn]. unfold draw_index. do 2 f_equal. nia.
Qed.

Lemma generate_raise :
  size = 1%nat ->
  generate_normal_map size strength noise_scale rng = Raise ZeroDivisionError.
Proof.
  intros Hs.
  assert (Hseq : seq 0 size = [0%nat]) by (rewrite Hs; reflexivity).
  unfold generate_normal_map, range. rewrite Hseq. cbn [for_each].
  unfold row_body, range. rewrite Hseq. cbn [for_each].
  rewrite pixel_body_raise by exact Hs. reflexivity.
Qed.

Lemma generate_pixel img x y :
  generate_normal_map size strength noise_scale rng = Ok img ->
  (x < size)%nat -> (y < size)%nat ->
  getpixel img x y = pixel_value x y (draw_index size x y).
Proof.
  intros Hg Hx Hy.
  destruct (Nat.eq_dec size 1%nat) as [E|NE].
  - rewrite generate_raise in Hg by exact E. discriminate.
  - destruct generate_ok as (img' & Hg' & _ & _ & Hpx); [exact NE|].
    rewrite Hg in Hg'. injection Hg' as <-.
    unfold getpixel. rewrite Hpx by assumption. reflexivity.
Qed.

Lemma generate_dims img :
  generate_normal_map size strength noise_scale rng = Ok img ->
  width img = size /\ height img = size.
Proof.
  unfold generate_normal_map. destruct (for_each _ _ _); cbn [bind].
  - intros [= <-]. split; reflexivity.
  - discriminate.
Qed.
End Loops.

(** ** Arithmetic of the primitives *)

Lemma math_pow_three_halves x : 0 <= x -> math_pow x 1.5 = x * sqrt x.
Proof.
  intros Hx. unfold math_pow. destruct (Req_dec_T x 0) as [->|N].
  - lra.
  - assert (Hpos : 0 < x) by lra.
    replace 1.5 with (1 + / 2) by lra.
    rewrite Rpower_plus, Rpower_1, Rpower_sqrt by exact Hpos. reflexivity.
Qed.

Lemma sqrt_lower a x : 0 <= a -> a * a <= x -> a <= sqrt x.
Proof.
  intros Ha H. rewrite <- (sqrt_square a Ha). apply sqrt_le_1_alt, H.
Qed.

Lemma sqrt_upper a x : 0 <= a -> x <= a * a -> sqrt x <= a.
Proof.
  intros Ha H. rewrite <- (sqrt_square a Ha). apply sqrt_le_1_alt, H.
Qed.

Lemma sqrt_lower_strict a x : 0 <= a -> a * a < x -> a < sqrt x.
Proof.
  intros Ha H. rewrite <- (sqrt_square a Ha). apply sqrt_lt_1_alt. nra.
Qed.

Lemma sqrt_upper_strict a x : 0 <= a -> 0 <= x -> x < a * a -> sqrt x < a.
Proof.
  intros Ha Hx H. rewrite <- (sqrt_square a Ha). apply sqrt_lt_1_alt. lra.
Qed.

Lemma py_int_eq (z : Z) x : 0 <= x -> IZR z <= x < IZR z + 1 -> py_int x = z.
Proof.
  intros Hx H. unfold py_int. destruct (Rle_dec 0 x); [|contradiction].
  apply Zfloor_eq, H.
Qed.

Lemma py_int_floor x : 0 <= x -> py_int x = Zfloor x.
Proof. intros Hx. unfold py_int. destruct (Rle_dec 0 x); [reflexivity|contradiction]. Qed.

Lemma clamp_strength_range s : 0 <= clamp_strength s <= 1.
Proof.
  unfold clamp_strength, Rmax, Rmin.
  destruct (Rle_dec 1 s); destruct (Rle_dec 0 _); lra.
Qed.

(** ** Lengths *)

Lemma sumsq_nonneg v : 0 <= sumsq v.
Proof. destruct v as [[vx vy] vz]. simpl. nra. Qed.

Lemma vnorm_sqrt v : vnorm v = sqrt (sumsq v).
Proof. destruct v as [[vx vy] vz]. reflexivity. Qed.

Lemma vnorm_nonneg v : 0 <= vnorm v.
Proof. rewrite vnorm_sqrt. apply sqrt_pos. Qed.

Lemma vnorm_sqr v : vnorm v * vnorm v = sumsq v.
Proof. rewrite vnorm_sqrt. apply sqrt_sqrt, sumsq_nonneg. Qed.

Lemma vnorm_one v : sumsq v = 1 -> vnorm v = 1.
Proof. intros H. rewrite vnorm_sqrt, H. apply sqrt_1. Qed.

Lemma normalize_big v :
  vnorm v > 1e-6 ->
  normalize v =
    (let '(vx, vy, vz) := v in (vx / vnorm v, vy / vnorm v, vz / vnorm v)).
Proof.
  intros H. destruct v as [[vx vy] vz]. unfold normalize.
  destruct (Rgt_dec _ _); [reflexivity|contradiction].
Qed.

Lemma normalize_small v : ~ vnorm v > 1e-6 -> normalize v = v.
Proof.
  intros H. destruct v as [[vx vy] vz]. unfold normalize.
  destruct (Rgt_dec _ _); [contradiction|reflexivity].
Qed.

Lemma normalize_sumsq v : vnorm v > 1e-6 -> sumsq (normalize v) = 1.
Proof.
  intros H. rewrite normalize_big by exact H.
  pose proof (vnorm_sqr v) as Hs. destruct v as [[vx vy] vz].
  cbn [sumsq] in *. set (l := vnorm _) in *.
  assert (Hl : l <> 0) by lra.
  transitivity ((vx * vx + vy * vy + vz * vz) / (l * l)).
  - field. exact Hl.
  - rewrite <- Hs. field. exact Hl.
Qed.

Lemma normalize_unit v : vnorm v = 1 -> normalize v = v.
Proof.
  intros H. rewrite normalize_big by lra. destruct v as [[vx vy] vz].
  rewrite H. f_equal; [f_equal|]; field.
Qed.

(** After [normalize] no component exceeds 1 in absolute value. *)
Lemma normalize_sumsq_le v : sumsq (normalize v) <= 1.
Proof.
  destruct (Rgt_dec (vnorm v) 1e-6) as [H|H].
  - rewrite normalize_sumsq by exact H. lra.
  - rewrite normalize_small by exact H.
    pose proof (vnorm_sqr v). pose proof (vnorm_nonneg v). nra.
Qed.

(** ** The groove formula *)

Lemma groove_inner_nonneg s d : 0 <= groove_inner s d.
Proof. unfold groove_inner. apply Rmax_l. Qed.

Lemma raw_vector_sumsq s dx dy :
  sumsq (raw_vector s dx dy) =
    clamp_strength s * clamp_strength s * (dx * dx + dy * dy)
    + groove_inner s (dx * dx + dy * dy).
Proof.
  unfold raw_vector. cbn [sumsq].
  rewrite sqrt_sqrt by apply groove_inner_nonneg. ring.
Qed.

(** [k^2 d + max(0, 1 - d^1.5 k)] stays above 3/4 on the disc: with
    [t = sqrt d] it is at least [(k t - t^2/2)^2 + 1 - t^4/4]. *)
Lemma groove_lower_bound s d :
  0 <= d <= 1 ->
  3 / 4 <= clamp_strength s * clamp_strength s * d + groove_inner s d.
Proof.
  intros [Hd0 Hd1]. unfold groove_inner.
  rewrite math_pow_three_halves by exact Hd0.
  pose proof (clamp_strength_range s) as Hk.
  set (k := clamp_strength s) in *.
  pose proof (sqrt_pos d) as Ht0.
  pose proof (sqrt_sqrt d Hd0) as Htt.
  assert (Ht1 : sqrt d <= 1) by (apply sqrt_upper; lra).
  set (t := sqrt d) in *.
  pose proof (Rmax_r 0 (1 - d * t * k)) as Hmax.
  pose proof (Rle_0_sqr (k * t - d / 2)) as Hsq. unfold Rsqr in Hsq.
  assert (Hd2 : d * d <= 1) by nra.
  replace (d * t * k) with (k * t * d) in * by ring.
  assert (Hexp : (k * t - d / 2) * (k * t - d / 2)
                 = k * k * d - k * t * d + d * d / 4).
  { transitivity (k * k * (t * t) - k * t * d + d * d / 4);
      [field | rewrite Htt; reflexivity]. }
  lra.
Qed.

Lemma raw_vector_long s dx dy :
  dx * dx + dy * dy <= 1 -> vnorm (raw_vector s dx dy) > 1e-6.
Proof.
  intros Hd. rewrite vnorm_sqrt, raw_vector_sumsq.
  assert (Hd0 : 0 <= dx * dx + dy * dy) by nra.
  pose proof (groove_lower_bound s _ (conj Hd0 Hd)) as H.
  apply Rlt_gt, sqrt_lower_strict; lra.
Qed.

Lemma pre_noise_inside s dx dy :
  dx * dx + dy * dy <= 1 ->
  pre_noise s dx dy = normalize (raw_vector s dx dy).
Proof.
  intros H. unfold pre_noise. destruct (Rle_dec _ _); [reflexivity|contradiction].
Qed.

Lemma pre_noise_outside s dx dy :
  dx * dx + dy * dy > 1 -> pre_noise s dx dy = (0, 0, 1).
Proof.
  intros H. unfold pre_noise. destruct (Rle_dec _ _); [lra|reflexivity].
Qed.

(** Whatever the pixel, the vector handed to the noise step has length 1. *)
Lemma pre_noise_unit s dx dy : vnorm (pre_noise s dx dy) = 1.
Proof.
  apply vnorm_one.
  destruct (Rle_dec (dx * dx + dy * dy) 1) as [H|H].
  - rewrite pre_noise_inside by exact H.
    apply normalize_sumsq, raw_vector_long, H.
  - rewrite pre_noise_outside by lra. cbn [sumsq]. ring.
Qed.

Lemma add_noise_zero v u1 u2 : add_noise 0 v u1 u2 = v.
Proof.
  destruct v as [[vx vy] vz]. unfold add_noise.
  rewrite !Rmult_0_r, !Rplus_0_r. reflexivity.
Qed.

Lemma final_normal_no_noise s dx dy u1 u2 :
  final_normal s 0 dx dy u1 u2 = pre_noise s dx dy.
Proof.
  unfold final_normal. rewrite add_noise_zero.
  apply normalize_unit, pre_noise_unit.
Qed.

(** ** Encoding *)

Lemma encode_channel_zero : encode_channel 0 = 127%Z.
Proof. unfold encode_channel. apply py_int_eq; lra. Qed.

Lemma encode_channel_one : encode_channel 1 = 255%Z.
Proof. unfold encode_channel. apply py_int_eq; lra. Qed.

Lemma encode_flat : encode (0, 0, 1) = flat_pixel.
Proof.
  unfold encode, flat_pixel.
  rewrite encode_channel_zero, encode_channel_one. reflexivity.
Qed.

Lemma encode_channel_range c :
  -1 <= c <= 1 -> (0 <= encode_channel c <= 255)%Z.
Proof.
  intros Hc. unfold encode_channel.
  set (v := (c * 0.5 + 0.5) * 255).
  assert (Hv : 0 <= v <= 255) by (unfold v; lra).
  rewrite py_int_floor by lra.
  pose proof (Zfloor_bound v) as [Hlo _].
  split.
  - apply Zfloor_lub. simpl. lra.
  - apply le_IZR. lra.
Qed.

Lemma sumsq_le_one_components vx vy vz :
  sumsq (vx, vy, vz) <= 1 ->
  (-1 <= vx <= 1) /\ (-1 <= vy <= 1) /\ (-1 <= vz <= 1).
Proof. cbn [sumsq]. intros H. repeat split; nra. Qed.

Lemma final_normal_components s ns dx dy u1 u2 :
  let '(nx, ny, nz) := final_normal s ns dx dy u1 u2 in
  (-1 <= nx <= 1) /\ (-1 <= ny <= 1) /\ (-1 <= nz <= 1).
Proof.
  unfold final_normal.
  pose proof (normalize_sumsq_le (add_noise ns (pre_noise s dx dy) u1 u2)) as H.
  destruct (normalize _) as [[nx ny] nz].
  apply sumsq_le_one_components, H.
Qed.

(** ** Pixels of a generated canvas *)

Lemma getpixel_encode size strength noise_scale rng img x y :
  generate_normal_map size strength noise_scale rng = Ok img ->
  (x < size)%nat -> (y < size)%nat ->
  getpixel img x y =
    encode (pixel_final_normal size strength noise_scale rng x y).
Proof. intros Hg Hx Hy. rewrite (generate_pixel _ _ _ _ _ _ _ Hg Hx Hy). reflexivity. Qed.

Lemma getpixel_no_noise size strength rng img x y :
  generate_normal_map size strength 0 rng = Ok img ->
  (x < size)%nat -> (y < size)%nat ->
  getpixel img x y = encode (pixel_pre_noise size strength x y).
Proof.
  intros Hg Hx Hy. rewrite (getpixel_encode _ _ _ _ _ _ _ Hg Hx Hy).
  unfold pixel_final_normal. rewrite final_normal_no_noise. reflexivity.
Qed.

(** ** Dependence on [strength] and on the random source *)

Lemma for_each_ext {A S : Type} (f g : A -> S -> result S) l :
  (forall a s, f a s = g a s) ->
  forall s, for_each l f s = for_each l g s.
Proof.
  intros Hfg. induction l as [|a l IH]; intros s; cbn [for_each].
  - reflexivity.
  - rewrite Hfg. destruct (g a s); cbn [bind]; [apply IH|reflexivity].
Qed.

Lemma pixel_body_ext size s1 n1 rng1 s2 n2 rng2 :
  (forall dx dy n,
     normalize (add_noise n1 (pre_noise s1 dx dy) (rng1 n) (rng1 (S n))) =
     normalize (add_noise n2 (pre_noise s2 dx dy) (rng2 n) (rng2 (S n)))) ->
  forall y x st,
    pixel_body size s1 n1 rng1 y x st = pixel_body size s2 n2 rng2 y x st.
Proof.
  intros H y x st. unfold pixel_body.
  destruct (fdiv (INR x - cx size) (radius size)) as [dx|e]; cbn [bind];
    [|reflexivity].
  destruct (fdiv (INR y - cy size) (radius size)) as [dy|e]; cbn [bind];
    [|reflexivity].
  cbn [random px drawn].
  rewrite (H dx dy (drawn st)). reflexivity.
Qed.

Lemma generate_ext size s1 n1 rng1 s2 n2 rng2 :
  (forall dx dy n,
     normalize (add_noise n1 (pre_noise s1 dx dy) (rng1 n) (rng1 (S n))) =
     normalize (add_noise n2 (pre_noise s2 dx dy) (rng2 n) (rng2 (S n)))) ->
  generate_normal_map size s1 n1 rng1 = generate_normal_map size s2 n2 rng2.
Proof.
  intros H. unfold generate_normal_map.
  rewrite (for_each_ext (row_body size s1 n1 rng1) (row_body size s2 n2 rng2));
    [reflexivity|].
  intros y st. unfold row_body. apply for_each_ext.
  intros x st'. apply pixel_body_ext, H.
Qed.

Lemma pre_noise_clamp s1 s2 dx dy :
  clamp_strength s1 = clamp_strength s2 ->
  pre_noise s1 dx dy = pre_noise s2 dx dy.
Proof.
  intros H. unfold pre_noise, raw_vector, groove_inner. rewrite H. reflexivity.
Qed.

(** * The claims *)

(** C3. A pixel whose normalised squared distance exceeds 1 gets the
    pre-noise vector (0, 0, 1) exactly, and with [noise_scale = 0] its
    stored channels are the flat-normal encoding: R = 127, G = 127,
    B = 255 (and A = 255). *)
Theorem outside_disc_flat size strength noise_scale rng img x y :
  generate_normal_map size strength noise_scale rng = Ok img ->
  (x < size)%nat -> (y < size)%nat ->
  pixel_dist2 size x y > 1 ->
  pixel_pre_noise size strength x y = (0, 0, 1) /\
  (noise_scale = 0 -> getpixel img x y = (127, 127, 255, 255)%Z).
Proof.
  intros Hg Hx Hy Hd.
  assert (Hv : pixel_pre_noise size strength x y = (0, 0, 1))
    by (apply pre_noise_outside, Hd).
  split; [exact Hv|].
  intros ->. rewrite (getpixel_no_noise _ _ _ _ _ _ Hg Hx Hy), Hv.
  apply encode_flat.
Qed.

Lemma outside_disc_flat_witness :
  exists img,
    generate_normal_map 2 1 0 (fun _ => 0) = Ok img /\
    pixel_dist2 2 0 0 > 1 /\
    pixel_pre_noise 2 1 0 0 = (0, 0, 1) /\
    getpixel img 0 0 = (127, 127, 255, 255)%Z.
Proof.
  destruct (generate_ok 2 1 0 (fun _ => 0)) as (img & Hg & _); [lia|].
  assert (Hd : pixel_dist2 2 0 0 > 1).
  { unfold pixel_dist2, pixel_dx, pixel_dy. rewrite radius_eq.
    unfold cx, cy. simpl. lra. }
  exists img. split; [exact Hg|]. split; [exact Hd|].
  destruct (outside_disc_flat 2 1 0 (fun _ => 0) img 0 0 Hg) as [Hv Hp];
    [lia|lia|exact Hd|].
  split; [exact Hv|apply Hp; reflexivity].
Defined.

(** C4. Strength 1.5 gives the same outcome as strength 1.0, for every
    size, every noise scale and every state of the random source: the
    strength is only ever used through its clamped value. *)
Theorem strength_clamped_before_use size noise_scale rng :
  generate_normal_map size 1.5 noise_scale rng =
  generate_normal_map size 1.0 noise_scale rng.
Proof.
  apply generate_ext. intros dx dy n.
  rewrite (pre_noise_clamp 1.5 1.0); [reflexivity|].
  unfold clamp_strength, Rmin, Rmax.
  repeat (destruct (Rle_dec _ _)); lra.
Qed.

(** C5. With [noise_scale = 0] the outcome does not depend on the values
    drawn from the random source: two runs with the same size and strength
    give the same canvas. *)
Theorem deterministic_without_noise size strength rng1 rng2 :
  generate_normal_map size strength 0 rng1 =
  generate_normal_map size strength 0 rng2.
Proof.
  apply generate_ext. intros dx dy n. rewrite !add_noise_zero. reflexivity.
Qed.

(** C9 (failing input). For [size = 1] the centre and the radius are both
    0, and the first division of the loop body raises: no canvas is
    returned. *)
Theorem size_one_raises strength noise_scale rng :
  generate_normal_map 1 strength noise_scale rng = Raise ZeroDivisionError.
Proof. apply generate_raise. reflexivity. Qed.


(** C6. At every pixel, inside the disc or not, the noise step adds
    [(u - 0.5) * noise_scale] to x and to y, each with a draw [u] of its
    own (two consecutive values of the random source, each in [0, 1)), so
    both offsets lie between [-noise_scale/2] and [+noise_scale/2]; z
    goes through unchanged.  The stored pixel is the encoding of that
    vector after the final normalisation. *)
Theorem noise_on_x_and_y_only size strength noise_scale rng img x y :
  (forall n, 0 <= rng n < 1) ->
  generate_normal_map size strength noise_scale rng = Ok img ->
  (x < size)%nat -> (y < size)%nat ->
  let '(vx, vy, vz) := pixel_pre_noise size strength x y in
  let i := draw_index size x y in
  let noise_x := (rng i - 0.5) * noise_scale in
  let noise_y := (rng (S i) - 0.5) * noise_scale in
  add_noise noise_scale (vx, vy, vz) (rng i) (rng (S i))
    = (vx + noise_x, vy + noise_y, vz) /\
  getpixel img x y = encode (normalize (vx + noise_x, vy + noise_y, vz)) /\
  (0 <= noise_scale ->
     - noise_scale / 2 <= noise_x <= noise_scale / 2 /\
     - noise_scale / 2 <= noise_y <= noise_scale / 2) /\
  (noise_scale <= 0 ->
     noise_scale / 2 <= noise_x <= - noise_scale / 2 /\
     noise_scale / 2 <= noise_y <= - noise_scale / 2).
Proof.
  intros Hrng Hg Hx Hy.
  pose proof (getpixel_encode _ _ _ _ _ _ _ Hg Hx Hy) as Hp.
  unfold pixel_final_normal, final_normal in Hp.
  fold (pixel_pre_noise size strength x y) in Hp.
  destruct (pixel_pre_noise size strength x y) as [[vx vy] vz].
  pose proof (Hrng (draw_index size x y)) as H1.
  pose proof (Hrng (S (draw_index size x y))) as H2.
  cbv zeta. split; [reflexivity|]. split; [exact Hp|].
  split; intros Hs; split; nra.
Qed.

Lemma noise_on_x_and_y_only_witness :
  exists img,
    generate_normal_map 2 1 (1 / 10) (fun _ => 1 / 4) = Ok img /\
    getpixel img 0 0 =
      encode (normalize (0 + (1 / 4 - 0.5) * (1 / 10),
                         0 + (1 / 4 - 0.5) * (1 / 10), 1)).
Proof.
  destruct (generate_ok 2 1 (1 / 10) (fun _ => 1 / 4)) as (img & Hg & _);
    [lia|].
  exists img. split; [exact Hg|].
  assert (Hrng : forall n : nat, 0 <= (fun _ : nat => 1 / 4) n < 1)
    by (intros n; lra).
  assert (H0 : (0 < 2)%nat) by lia.
  pose proof (noise_on_x_and_y_only 2 1 (1 / 10) (fun _ => 1 / 4) img 0 0
                Hrng Hg H0 H0) as H.
  assert (Hv : pixel_pre_noise 2 1 0 0 = (0, 0, 1)).
  { apply pre_noise_outside. unfold pixel_dx, pixel_dy. rewrite radius_eq.
    unfold cx, cy. simpl. lra. }
  rewrite Hv in H. apply H.
Defined.

(** C7. At a pixel with [dx = dy = 0]: [dist2 = 0], [inner = 1],
    [dz = 1], the raw pre-noise vector is (0, 0, 1), and with
    [noise_scale = 0] the stored pixel is the flat-normal encoding. *)
Theorem center_pixel_flat size strength rng img x y :
  generate_normal_map size strength 0 rng = Ok img ->
  (x < size)%nat -> (y < size)%nat ->
  pixel_dx size x = 0 -> pixel_dy size y = 0 ->
  pixel_dist2 size x y = 0 /\
  groove_inner strength (pixel_dist2 size x y) = 1 /\
  sqrt (groove_inner strength (pixel_dist2 size x y)) = 1 /\
  raw_vector strength (pixel_dx size x) (pixel_dy size y) = (0, 0, 1) /\
  getpixel img x y = encode (0, 0, 1) /\
  getpixel img x y = (127, 127, 255, 255)%Z.
Proof.
  intros Hg Hx Hy Hdx Hdy.
  assert (Hd : pixel_dist2 size x y = 0)
    by (unfold pixel_dist2; rewrite Hdx, Hdy; ring).
  assert (Hin : groove_inner strength 0 = 1).
  { unfold groove_inner. rewrite math_pow_three_halves by lra.
    rewrite sqrt_0, Rmax_right; lra. }
  assert (Hraw : raw_vector strength 0 0 = (0, 0, 1)).
  { unfold raw_vector. replace (0 * 0 + 0 * 0) with 0 by ring.
    rewrite Hin, sqrt_1, !Rmult_0_l. reflexivity. }
  assert (Hp : getpixel img x y = encode (0, 0, 1)).
  { rewrite (getpixel_no_noise _ _ _ _ _ _ Hg Hx Hy).
    unfold pixel_pre_noise. rewrite Hdx, Hdy.
    rewrite pre_noise_inside by lra. rewrite Hraw.
    rewrite normalize_unit; [reflexivity|].
    apply vnorm_one. cbn [sumsq]. ring. }
  rewrite Hd, Hdx, Hdy, Hin, sqrt_1.
  repeat (split; [first [reflexivity | assumption]|]).
  rewrite Hp. apply encode_flat.
Qed.

Lemma center_pixel_flat_witness :
  exists img,
    generate_normal_map 3 1 0 (fun _ => 0) = Ok img /\
    pixel_dx 3 1 = 0 /\ pixel_dy 3 1 = 0 /\
    raw_vector 1 (pixel_dx 3 1) (pixel_dy 3 1) = (0, 0, 1) /\
    getpixel img 1 1 = (127, 127, 255, 255)%Z.
Proof.
  destruct (generate_ok 3 1 0 (fun _ => 0)) as (img & Hg & _); [lia|].
  assert (Hdx : pixel_dx 3 1 = 0).
  { unfold pixel_dx. rewrite radius_eq. unfold cx. simpl. lra. }
  assert (Hdy : pixel_dy 3 1 = 0).
  { unfold pixel_dy. rewrite radius_eq. unfold cy. simpl. lra. }
  exists img. split; [exact Hg|]. do 2 (split; [assumption|]).
  assert (H1 : (1 < 3)%nat) by lia.
  destruct (center_pixel_flat 3 1 (fun _ => 0) img 1 1 Hg H1 H1 Hdx Hdy)
    as (_ & _ & _ & Hraw & _ & Hp).
  split; [exact Hraw|exact Hp].
Defined.

Lemma decode_channel_range c :
  (0 <= c <= 255)%Z -> -1 <= decode_channel c <= 1.
Proof.
  intros [H0 H1]. apply IZR_le in H0, H1. unfold decode_channel. lra.
Qed.

(** C8. Whatever the strength, the noise scale and the values drawn,
    each stored R, G, B lies in [0, 255], and so each decoded component
    [(channel/255)*2 - 1] lies in [-1, 1]. *)
Theorem channels_fit_a_byte size strength noise_scale rng img x y :
  generate_normal_map size strength noise_scale rng = Ok img ->
  (x < size)%nat -> (y < size)%nat ->
  let '(r, g, b, _) := getpixel img x y in
  ((0 <= r <= 255)%Z /\ (0 <= g <= 255)%Z /\ (0 <= b <= 255)%Z) /\
  (-1 <= decode_channel r <= 1 /\
   -1 <= decode_channel g <= 1 /\
   -1 <= decode_channel b <= 1).
Proof.
  intros Hg Hx Hy. rewrite (getpixel_encode _ _ _ _ _ _ _ Hg Hx Hy).
  unfold pixel_final_normal.
  pose proof (final_normal_components strength noise_scale
                (pixel_dx size x) (pixel_dy size y)
                (rng (draw_index size x y))
                (rng (S (draw_index size x y)))) as H.
  destruct (final_normal _ _ _ _ _ _) as [[nx ny] nz].
  destruct H as (Hnx & Hny & Hnz). cbn [encode].
  pose proof (encode_channel_range nx Hnx).
  pose proof (encode_channel_range ny Hny).
  pose proof (encode_channel_range nz Hnz).
  split; [repeat split; lia|].
  repeat split; apply decode_channel_range; assumption.
Qed.

Lemma channels_fit_a_byte_witness :
  exists img,
    generate_normal_map 4 7 100 (fun _ => 1 / 4) = Ok img /\
    let '(r, g, b, _) := getpixel img 3 2 in
    ((0 <= r <= 255)%Z /\ (0 <= g <= 255)%Z /\ (0 <= b <= 255)%Z) /\
    (-1 <= decode_channel r <= 1 /\
     -1 <= decode_channel g <= 1 /\
     -1 <= decode_channel b <= 1).
Proof.
  destruct (generate_ok 4 7 100 (fun _ => 1 / 4)) as (img & Hg & _); [lia|].
  exists img. split; [exact Hg|].
  apply (channels_fit_a_byte 4 7 100 (fun _ => 1 / 4) img 3 2 Hg); lia.
Defined.

(** C10. On the disc the first normalisation is always performed: for
    [dist2 <= 1] and the clamped [k], the squared length [vlen^2] of the raw
    vector equals [k^2 dist2 + max(0, 1 - dist2^1.5 k)], which is at least
    3/4, so [vlen > 1e-6] and the pre-noise vector is the raw vector
    divided by [vlen]. *)
Theorem first_normalization_always_taken strength dx dy :
  let dist2 := dx * dx + dy * dy in
  let k := clamp_strength strength in
  let v := raw_vector strength dx dy in
  let vlen := vnorm v in
  dist2 <= 1 ->
  0 <= k <= 1 /\
  vlen * vlen = k * k * dist2 + Rmax 0 (1 - math_pow dist2 1.5 * k) /\
  3 / 4 <= vlen * vlen /\
  vlen > 1e-6 /\
  pre_noise strength dx dy =
    (dx * k / vlen, dy * k / vlen,
     sqrt (Rmax 0 (1 - math_pow dist2 1.5 * k)) / vlen).
Proof.
  intros dist2 k v vlen Hd.
  assert (Hd0 : 0 <= dist2) by (unfold dist2; nra).
  assert (Hsq : vlen * vlen = k * k * dist2 + groove_inner strength dist2).
  { unfold vlen, v. rewrite vnorm_sqr. apply raw_vector_sumsq. }
  split; [apply clamp_strength_range|].
  split; [exact Hsq|].
  split; [rewrite Hsq; apply groove_lower_bound; split; assumption|].
  pose proof (raw_vector_long strength dx dy Hd) as Hlong.
  split; [exact Hlong|].
  rewrite pre_noise_inside by exact Hd.
  rewrite normalize_big by exact Hlong. reflexivity.
Qed.

Lemma first_normalization_always_taken_witness :
  1 * 1 + 0 * 0 <= 1 /\
  3 / 4 <= vnorm (raw_vector (1 / 2) 1 0) * vnorm (raw_vector (1 / 2) 1 0) /\
  vnorm (raw_vector (1 / 2) 1 0) > 1e-6.
Proof.
  assert (Hd : 1 * 1 + 0 * 0 <= 1) by lra.
  split; [exact Hd|].
  destruct (first_normalization_always_taken (1 / 2) 1 0 Hd)
    as (_ & _ & Hb & Hl & _).
  split; [exact Hb|exact Hl].
Defined.

(** The bound 3/4 is attained on the rim of the disc at half strength. *)
Lemma three_quarters_attained :
  vnorm (raw_vector (1 / 2) 1 0) * vnorm (raw_vector (1 / 2) 1 0) = 3 / 4.
Proof.
  rewrite vnorm_sqr, raw_vector_sumsq.
  assert (Hk : clamp_strength (1 / 2) = 1 / 2).
  { unfold clamp_strength, Rmin, Rmax. repeat (destruct (Rle_dec _ _)); lra. }
  unfold groove_inner. rewrite Hk.
  replace (1 * 1 + 0 * 0) with 1 by ring.
  rewrite math_pow_three_halves by lra.
  rewrite sqrt_1, Rmax_right by lra. lra.
Qed.

(** ** Encoding: rounding against truncation *)

Lemma corner_of_3_outside : pixel_dist2 3 0 0 > 1.
Proof.
  unfold pixel_dist2, pixel_dx, pixel_dy. rewrite radius_eq.
  unfold cx, cy. simpl. lra.
Qed.

Lemma corner_of_3_normal :
  pixel_final_normal 3 0.6 2 rng_17_24 0 0 = (5 / 13, 0, 12 / 13).
Proof.
  unfold pixel_final_normal, final_normal.
  rewrite pre_noise_outside by apply corner_of_3_outside.
  change (draw_index 3 0 0) with 0%nat. cbn [rng_17_24 add_noise].
  replace (0 + (17 / 24 - 0.5) * 2) with (5 / 12) by lra.
  replace (0 + (1 / 2 - 0.5) * 2) with 0 by lra.
  assert (Hl : vnorm (5 / 12, 0, 1) = 13 / 12).
  { cbn [vnorm].
    replace (5 / 12 * (5 / 12) + 0 * 0 + 1 * 1) with (13 / 12 * (13 / 12))
      by lra.
    apply sqrt_square. lra. }
  rewrite normalize_big by (rewrite Hl; lra).
  rewrite Hl. f_equal; [f_equal|]; lra.
Qed.

(** C1 (counterexample). Size 3, noise scale 2, first draw 17/24, second
    1/2: the corner pixel (0, 0) has final normal (5/13, 0, 12/13).  Its
    scaled x component is 4590/26 = 176.53..., the stored R is 176, and the
    nearest integer is 177. *)
Lemma red_channel_not_rounded :
  exists img,
    generate_normal_map 3 0.6 2 rng_17_24 = Ok img /\
    pixel_final_normal 3 0.6 2 rng_17_24 0 0 = (5 / 13, 0, 12 / 13) /\
    getpixel img 0 0 = (176, 127, 245, 255)%Z /\
    rounds_to ((5 / 13 * 0.5 + 0.5) * 255) 177 /\
    ~ rounded_encoding (pixel_final_normal 3 0.6 2 rng_17_24 0 0)
        (getpixel img 0 0).
Proof.
  destruct (generate_ok 3 0.6 2 rng_17_24) as (img & Hg & _); [lia|].
  exists img. split; [exact Hg|]. split; [apply corner_of_3_normal|].
  assert (Hp : getpixel img 0 0 = (176, 127, 245, 255)%Z).
  { rewrite (getpixel_encode _ _ _ _ _ _ _ Hg) by lia.
    rewrite corner_of_3_normal. unfold encode, encode_channel.
    rewrite (py_int_eq 176), (py_int_eq 127), (py_int_eq 245) by lra.
    reflexivity. }
  split; [exact Hp|].
  split.
  - unfold rounds_to. apply Rabs_le. lra.
  - rewrite Hp, corner_of_3_normal. unfold rounded_encoding, rounds_to.
    intros [H _]. unfold Rabs in H. destruct (Rcase_abs _); lra.
Qed.

(** C1 (amended). Every stored pixel is [(int(sx), int(sy), int(sz), 255)]
    with [s = (n*0.5+0.5)*255] the scaled component of the final normal;
    the scaled values are never negative, so [int] is the floor: the
    fraction is dropped, not rounded. *)
Theorem channels_are_truncated size strength noise_scale rng img x y :
  generate_normal_map size strength noise_scale rng = Ok img ->
  (x < size)%nat -> (y < size)%nat ->
  let '(nx, ny, nz) := pixel_final_normal size strength noise_scale rng x y in
  getpixel img x y =
    (py_int ((nx * 0.5 + 0.5) * 255), py_int ((ny * 0.5 + 0.5) * 255),
     py_int ((nz * 0.5 + 0.5) * 255), 255%Z) /\
  getpixel img x y =
    (Zfloor ((nx * 0.5 + 0.5) * 255), Zfloor ((ny * 0.5 + 0.5) * 255),
     Zfloor ((nz * 0.5 + 0.5) * 255), 255%Z).
Proof.
  intros Hg Hx Hy. rewrite (getpixel_encode _ _ _ _ _ _ _ Hg Hx Hy).
  unfold pixel_final_normal.
  pose proof (final_normal_components strength noise_scale
                (pixel_dx size x) (pixel_dy size y)
                (rng (draw_index size x y))
                (rng (S (draw_index size x y)))) as H.
  destruct (final_normal _ _ _ _ _ _) as [[nx ny] nz].
  destruct H as (Hnx & Hny & Hnz).
  split; [reflexivity|].
  unfold encode, encode_channel. rewrite !py_int_floor by lra. reflexivity.
Qed.

Lemma channels_are_truncated_witness :
  exists img,
    generate_normal_map 3 0.6 2 rng_17_24 = Ok img /\
    getpixel img 0 0 =
      (Zfloor ((5 / 13 * 0.5 + 0.5) * 255), Zfloor ((0 * 0.5 + 0.5) * 255),
       Zfloor ((12 / 13 * 0.5 + 0.5) * 255), 255%Z).
Proof.
  destruct (generate_ok 3 0.6 2 rng_17_24) as (img & Hg & _); [lia|].
  exists img. split; [exact Hg|].
  assert (H0 : (0 < 3)%nat) by lia.
  pose proof (channels_are_truncated 3 0.6 2 rng_17_24 img 0 0 Hg H0 H0) as H.
  rewrite corner_of_3_normal in H. apply H.
Defined.

(** ** Length of the decoded vector *)

Lemma encode_channel_quotient (z : Z) v l :
  0 < l -> (0 <= z)%Z ->
  (2 * IZR z - 255) * l <= 255 * v < (2 * IZR z + 2 - 255) * l ->
  encode_channel (v / l) = z.
Proof.
  intros Hl Hz [Hlo Hhi]. unfold encode_channel.
  apply IZR_le in Hz.
  assert (Hq : v / l * l = v) by (field; lra).
  set (q := v / l) in *.
  apply py_int_eq; [nra|]. split; nra.
Qed.

(** Pixel (4, 4) of a 6 by 6 canvas: [dx = dy = 12/19]. *)
Lemma px44_dx : pixel_dx 6 4 = 12 / 19.
Proof. unfold pixel_dx. rewrite radius_eq. unfold cx. simpl. lra. Qed.

Lemma px44_dy : pixel_dy 6 4 = 12 / 19.
Proof. unfold pixel_dy. rewrite radius_eq. unfold cy. simpl. lra. Qed.

Lemma clamp_strength_08 : clamp_strength 0.8 = 0.8.
Proof.
  unfold clamp_strength, Rmin, Rmax. repeat (destruct (Rle_dec _ _)); lra.
Qed.

Lemma px44_encoded :
  encode (pixel_pre_noise 6 0.8 4 4) = (193, 193, 213, 255)%Z.
Proof.
  unfold pixel_pre_noise. rewrite px44_dx, px44_dy.
  assert (Hd : 12 / 19 * (12 / 19) + 12 / 19 * (12 / 19) = 288 / 361) by lra.
  rewrite pre_noise_inside by lra.
  pose proof (raw_vector_long 0.8 (12 / 19) (12 / 19)) as Hlong.
  rewrite normalize_big by (apply Hlong; lra). clear Hlong.
  pose proof (vnorm_sqr (raw_vector 0.8 (12 / 19) (12 / 19))) as Hsq.
  pose proof (vnorm_nonneg (raw_vector 0.8 (12 / 19) (12 / 19))) as Hl0.
  rewrite raw_vector_sumsq, clamp_strength_08, Hd in Hsq.
  unfold raw_vector in *. rewrite clamp_strength_08, Hd in *.
  set (l := vnorm _) in *.
  (* t = sqrt dist2 *)
  assert (Ht : 0.8931 <= sqrt (288 / 361) <= 0.8932).
  { split; [apply sqrt_lower|apply sqrt_upper]; lra. }
  assert (Hin : groove_inner 0.8 (288 / 361)
                = 1 - 288 / 361 * sqrt (288 / 361) * 0.8).
  { unfold groove_inner.
    rewrite clamp_strength_08, math_pow_three_halves by lra.
    apply Rmax_right. nra. }
  rewrite Hin in *. set (t := sqrt (288 / 361)) in *.
  assert (Hdz : 0.6556 <= sqrt (1 - 288 / 361 * t * 0.8) <= 0.6558).
  { split; [apply sqrt_lower|apply sqrt_upper]; lra. }
  set (dz := sqrt _) in *.
  assert (Hl : 0.9697 <= l <= 0.9699) by (split; nra).
  unfold encode.
  rewrite (encode_channel_quotient 193), (encode_channel_quotient 213);
    [reflexivity | | | | | |]; try lia; try lra.
  all: simpl; split; nra.
Qed.

Lemma decoded_193_193_213_short :
  vnorm (decode (193, 193, 213, 255)%Z) < 1 - 0.01.
Proof.
  unfold decode, decode_channel. cbn [vnorm].
  apply sqrt_upper_strict; lra.
Qed.

(** C2 (counterexample). Size 6, strength 0.8, no noise, pixel (4, 4):
    the pre-noise vector has length 1, the stored channels are
    (193, 193, 213), and the decoded vector has length below 0.99. *)
Lemma decoded_length_off_by_more_than_a_hundredth :
  exists img,
    generate_normal_map 6 0.8 0 (fun _ => 0) = Ok img /\
    vnorm (pixel_pre_noise 6 0.8 4 4) > 1e-6 /\
    getpixel img 4 4 = (193, 193, 213, 255)%Z /\
    ~ Rabs (vnorm (decode (getpixel img 4 4)) - 1) <= 0.01.
Proof.
  destruct (generate_ok 6 0.8 0 (fun _ => 0)) as (img & Hg & _); [lia|].
  exists img. split; [exact Hg|].
  split; [unfold pixel_pre_noise; rewrite pre_noise_unit; lra|].
  assert (Hp : getpixel img 4 4 = (193, 193, 213, 255)%Z).
  { rewrite (getpixel_no_noise _ _ _ _ _ _ Hg) by lia. apply px44_encoded. }
  split; [exact Hp|].
  rewrite Hp. pose proof decoded_193_193_213_short as Hs.
  intros H. unfold Rabs in H. destruct (Rcase_abs _); lra.
Qed.

(** Truncation loses less than one step of 2/255 per component. *)
Lemma decode_encode_error c :
  -1 <= c <= 1 ->
  0 <= c - decode_channel (encode_channel c) < 2 / 255.
Proof.
  intros Hc. unfold encode_channel, decode_channel.
  rewrite py_int_floor by lra.
  pose proof (Zfloor_bound ((c * 0.5 + 0.5) * 255)) as [Hlo Hhi].
  split; lra.
Qed.

Lemma cauchy_schwarz_3 a1 a2 a3 b1 b2 b3 :
  (a1 * b1 + a2 * b2 + a3 * b3) * (a1 * b1 + a2 * b2 + a3 * b3)
  <= (a1 * a1 + a2 * a2 + a3 * a3) * (b1 * b1 + b2 * b2 + b3 * b3).
Proof.
  pose proof (Rle_0_sqr (a1 * b2 - a2 * b1)) as H12.
  pose proof (Rle_0_sqr (a1 * b3 - a3 * b1)) as H13.
  pose proof (Rle_0_sqr (a2 * b3 - a3 * b2)) as H23.
  unfold Rsqr in *. nra.
Qed.

Lemma sqr_le_bound p c b : 0 <= b -> p * p <= c -> c <= b * b -> - b <= p <= b.
Proof. intros Hb Hp Hc. split; nra. Qed.

Lemma decoded_sumsq_bounds n :
  sumsq n = 1 ->
  0.986 * 0.986 <= sumsq (decode (encode n)) <= 1.014 * 1.014.
Proof.
  intros Hn. destruct n as [[nx ny] nz].
  destruct (sumsq_le_one_components nx ny nz) as (Hx & Hy & Hz); [lra|].
  pose proof (decode_encode_error nx Hx) as Hex.
  pose proof (decode_encode_error ny Hy) as Hey.
  pose proof (decode_encode_error nz Hz) as Hez.
  cbn [encode decode sumsq] in *.
  set (ex := nx - decode_channel (encode_channel nx)) in *.
  set (ey := ny - decode_channel (encode_channel ny)) in *.
  set (ez := nz - decode_channel (encode_channel nz)) in *.
  replace (decode_channel (encode_channel nx)) with (nx - ex)
    by (unfold ex; ring).
  replace (decode_channel (encode_channel ny)) with (ny - ey)
    by (unfold ey; ring).
  replace (decode_channel (encode_channel nz)) with (nz - ez)
    by (unfold ez; ring).
  pose proof (cauchy_schwarz_3 nx ny nz ex ey ez) as Hcs.
  rewrite Hn, Rmult_1_l in Hcs.
  set (P := nx * ex + ny * ey + nz * ez) in *.
  set (E := ex * ex + ey * ey + ez * ez) in *.
  assert (HE : 0 <= E <= 3 * (2 / 255 * (2 / 255))) by (unfold E; split; nra).
  assert (HP : - (0.013586) <= P <= 0.013586).
  { apply (sqr_le_bound P (3 * (2 / 255 * (2 / 255))) 0.013586); lra. }
  replace ((nx - ex) * (nx - ex) + (ny - ey) * (ny - ey)
           + (nz - ez) * (nz - ez))
    with (nx * nx + ny * ny + nz * nz - 2 * P + E)
    by (unfold P, E; ring).
  rewrite Hn. lra.
Qed.

(** C2 (amended). With [noise_scale = 0], at every pixel whose pre-noise
    vector is longer than 1e-6, the vector decoded from the stored R, G, B
    has length within 0.014 of 1. *)
Theorem decoded_length_near_one size strength rng img x y :
  generate_normal_map size strength 0 rng = Ok img ->
  (x < size)%nat -> (y < size)%nat ->
  vnorm (pixel_pre_noise size strength x y) > 1e-6 ->
  Rabs (vnorm (decode (getpixel img x y)) - 1) <= 0.014.
Proof.
  intros Hg Hx Hy _.
  rewrite (getpixel_no_noise _ _ _ _ _ _ Hg Hx Hy).
  assert (Hn : sumsq (pixel_pre_noise size strength x y) = 1).
  { rewrite <- vnorm_sqr. unfold pixel_pre_noise.
    rewrite pre_noise_unit. ring. }
  pose proof (decoded_sumsq_bounds _ Hn) as [Hlo Hhi].
  rewrite vnorm_sqrt. apply Rabs_le. split.
  - assert (0.986 <= sqrt (sumsq (decode (encode
              (pixel_pre_noise size strength x y)))))
      by (apply sqrt_lower; lra).
    lra.
  - assert (sqrt (sumsq (decode (encode
              (pixel_pre_noise size strength x y)))) <= 1.014)
      by (apply sqrt_upper; lra).
    lra.
Qed.

Lemma decoded_length_near_one_witness :
  exists img,
    generate_normal_map 6 0.8 0 (fun _ => 0) = Ok img /\
    vnorm (pixel_pre_noise 6 0.8 4 4) > 1e-6 /\
    Rabs (vnorm (decode (getpixel img 4 4)) - 1) <= 0.014.
Proof.
  destruct (generate_ok 6 0.8 0 (fun _ => 0)) as (img & Hg & _); [lia|].
  assert (Hv : vnorm (pixel_pre_noise 6 0.8 4 4) > 1e-6)
    by (unfold pixel_pre_noise; rewrite pre_noise_unit; lra).
  exists img. split; [exact Hg|]. split; [exact Hv|].
  apply (decoded_length_near_one 6 0.8 (fun _ => 0) img 4 4 Hg); [lia|lia|].
  exact Hv.
Defined.

(** * Further properties of the generator *)

(** ** Outcome, pixel store and use of the random source *)


Lemma generate_run_loops size strength noise_scale rng :
  generate_normal_map size strength noise_scale rng =
    (try st := run_loops size strength noise_scale rng in
     Ok (mkImage size size (px st))).
Proof. reflexivity. Qed.

(** The whole pixel store after the loops, and the draw counter. *)
Lemma run_loops_ok size strength noise_scale rng :
  size <> 1%nat ->
  exists st,
    run_loops size strength noise_scale rng = Ok st /\
    drawn st = (2 * (size * size))%nat /\
    forall x y,
      px st !! (x, y) =
        if decide ((x < size)%nat /\ (y < size)%nat)
        then Some (shade_at size strength noise_scale rng x y
                     (draw_index size x y))
        else None.
Proof.
  intros Hs. unfold run_loops, range.
  destruct (rows_loop size strength noise_scale rng size 0%nat
              (mkState (data (Image_new size size)) 0) Hs)
    as (st & Hrun & Hd & Hpx).
  exists st. split; [exact Hrun|]. split; [exact Hd|].
  intros x y. rewrite Hpx. cbn [px drawn data Image_new].
  destruct (decide ((x < size)%nat /\ (y < size)%nat)) as [[Hx Hy]|N].
  - rewrite decide_True by lia. unfold draw_index. do 2 f_equal. nia.
  - rewrite decide_False by lia. apply lookup_empty.
Qed.

Lemma run_loops_raise size strength noise_scale rng :
  size = 1%nat ->
  run_loops size strength noise_scale rng = Raise ZeroDivisionError.
Proof.
  intros Hs.
  pose proof (generate_raise size strength noise_scale rng Hs) as Hg.
  rewrite generate_run_loops in Hg.
  destruct (run_loops size strength noise_scale rng) as [st|[]];
    [discriminate|reflexivity].
Qed.

(** X2. Only cells of the canvas are ever written, and all of them are:
    the store of a returned canvas holds a value at [(x, y)] exactly when
    [x < size] and [y < size]. *)
Theorem writes_exactly_the_canvas size strength noise_scale rng img x y :
  generate_normal_map size strength noise_scale rng = Ok img ->
  (is_Some (data img !! (x, y)) <-> (x < size)%nat /\ (y < size)%nat).
Proof.
  intros Hg. rewrite generate_run_loops in Hg.
  destruct (Nat.eq_dec size 1%nat) as [E|NE].
  - rewrite run_loops_raise in Hg by exact E. discriminate.
  - destruct (run_loops_ok size strength noise_scale rng NE)
      as (st & Hrun & _ & Hpx).
    rewrite Hrun in Hg. cbn [bind] in Hg. injection Hg as <-.
    cbn [data]. rewrite Hpx.
    destruct (decide ((x < size)%nat /\ (y < size)%nat)) as [H|H].
    + split; [intros _; exact H|intros _; eexists; reflexivity].
    + split; [intros [p Hp]; discriminate|intros H'; contradiction].
Qed.

Lemma writes_exactly_the_canvas_witness :
  exists img,
    generate_normal_map 2 0.6 0.02 (fun _ => 1 / 4) = Ok img /\
    is_Some (data img !! (1%nat, 1%nat)) /\
    ~ is_Some (data img !! (2%nat, 0%nat)).
Proof.
  destruct (generate_ok 2 0.6 0.02 (fun _ => 1 / 4)) as (img & Hg & _); [lia|].
  exists img. split; [exact Hg|].
  pose proof (writes_exactly_the_canvas 2 0.6 0.02 (fun _ => 1 / 4) img) as H.
  split.
  - apply (H 1%nat 1%nat Hg). lia.
  - intros Hin. apply (H 2%nat 0%nat Hg) in Hin. lia.
Defined.

(** X3. The loops take exactly two values per pixel from the random source,
    [2 * size * size] in all, whatever the noise scale (zero included). *)
Theorem two_draws_per_pixel size strength noise_scale rng :
  size <> 1%nat ->
  exists st,
    run_loops size strength noise_scale rng = Ok st /\
    drawn st = (2 * size * size)%nat /\
    generate_normal_map size strength noise_scale rng
      = Ok (mkImage size size (px st)).
Proof.
  intros Hs.
  destruct (run_loops_ok size strength noise_scale rng Hs)
    as (st & Hrun & Hd & _).
  exists st. split; [exact Hrun|]. split; [lia|].
  rewrite generate_run_loops, Hrun. reflexivity.
Qed.

Lemma two_draws_per_pixel_witness :
  exists st,
    run_loops 3 0.6 0 (fun _ => 1 / 4) = Ok st /\ drawn st = 18%nat.
Proof.
  destruct (two_draws_per_pixel 3 0.6 0 (fun _ => 1 / 4))
    as (st & Hrun & Hd & _); [lia|].
  exists st. split; [exact Hrun|exact Hd].
Defined.

(** X4. The outcome depends on the random source only through its first
    [2 * size * size] values. *)
Theorem only_first_draws_matter size strength noise_scale rng1 rng2 :
  (forall n, (n < 2 * size * size)%nat -> rng1 n = rng2 n) ->
  generate_normal_map size strength noise_scale rng1 =
  generate_normal_map size strength noise_scale rng2.
Proof.
  intros Hrng. rewrite !generate_run_loops.
  destruct (Nat.eq_dec size 1%nat) as [E|NE].
  - rewrite !run_loops_raise by exact E. reflexivity.
  - destruct (run_loops_ok size strength noise_scale rng1 NE)
      as (st1 & Hrun1 & _ & Hpx1).
    destruct (run_loops_ok size strength noise_scale rng2 NE)
      as (st2 & Hrun2 & _ & Hpx2).
    rewrite Hrun1, Hrun2. cbn [bind]. do 2 f_equal.
    apply map_eq. intros [x y]. rewrite Hpx1, Hpx2.
    destruct (decide ((x < size)%nat /\ (y < size)%nat)) as [[Hx Hy]|_];
      [|reflexivity].
    unfold shade_at.
    rewrite (Hrng (draw_index size x y)), (Hrng (S (draw_index size x y)));
      [reflexivity| |]; unfold draw_index; nia.
Qed.

Lemma only_first_draws_matter_witness :
  generate_normal_map 2 0.6 0.02 (fun n => if (n <? 8)%nat then 1 / 4 else 0) =
  generate_normal_map 2 0.6 0.02 (fun _ => 1 / 4).
Proof.
  apply only_first_draws_matter. intros n Hn.
  destruct (Nat.ltb_spec n 8); [reflexivity|lia].
Defined.

(** ** Where the disc lies *)

Lemma cx_pos size : (2 <= size)%nat -> 0 < cx size.
Proof.
  intros Hs. unfold cx. apply le_INR in Hs. simpl in Hs. lra.
Qed.

Lemma radius_pos size : (2 <= size)%nat -> 0 < radius size.
Proof.
  intros Hs. pose proof (cx_pos size Hs) as H. rewrite radius_eq.
  unfold cx in H. lra.
Qed.

Lemma pixel_dx_first size : (2 <= size)%nat -> pixel_dx size 0 = - (20 / 19).
Proof.
  intros Hs. pose proof (cx_pos size Hs) as H.
  unfold pixel_dx. rewrite radius_eq. unfold cx in *. simpl (INR 0).
  set (a := INR size) in *.
  replace 0.95 with (19 / 20) by lra. replace 2.0 with 2 in * by lra.
  field. lra.
Qed.

Lemma pixel_dx_last size :
  (2 <= size)%nat -> pixel_dx size (size - 1) = 20 / 19.
Proof.
  intros Hs. pose proof (cx_pos size Hs) as H.
  unfold pixel_dx. rewrite radius_eq, minus_INR by lia.
  unfold cx in *. simpl (INR 1). set (a := INR size) in *.
  replace 0.95 with (19 / 20) by lra. replace 2.0 with 2 in * by lra.
  field. lra.
Qed.

Lemma pixel_dy_dx size y : pixel_dy size y = pixel_dx size y.
Proof. reflexivity. Qed.

(** X5. The radius is 95% of the half-width, so the disc stops short of the
    border: every pixel of the first or last row or column has
    [dist2 > 1], and without noise it is stored flat. *)
Theorem border_is_flat size strength rng img x y :
  generate_normal_map size strength 0 rng = Ok img ->
  (x < size)%nat -> (y < size)%nat ->
  x = 0%nat \/ x = (size - 1)%nat \/ y = 0%nat \/ y = (size - 1)%nat ->
  pixel_dist2 size x y > 1 /\
  getpixel img x y = (127, 127, 255, 255)%Z.
Proof.
  intros Hg Hx Hy Hb.
  assert (Hs : (2 <= size)%nat).
  { destruct (Nat.eq_dec size 1%nat) as [E|NE]; [|lia].
    rewrite generate_raise in Hg by exact E. discriminate. }
  assert (Hd : pixel_dist2 size x y > 1).
  { unfold pixel_dist2. change (pixel_dy size y) with (pixel_dx size y).
    pose proof (pixel_dx_first size Hs) as H0.
    pose proof (pixel_dx_last size Hs) as H1.
    pose proof (Rle_0_sqr (pixel_dx size x)) as Sx.
    pose proof (Rle_0_sqr (pixel_dx size y)) as Sy.
    unfold Rsqr in Sx, Sy.
    destruct Hb as [-> | [-> | [-> | ->]]].
    - rewrite H0 in *. lra.
    - rewrite H1 in *. lra.
    - rewrite H0 in *. lra.
    - rewrite H1 in *. lra. }
  split; [exact Hd|].
  rewrite (getpixel_no_noise _ _ _ _ _ _ Hg Hx Hy).
  unfold pixel_pre_noise. rewrite pre_noise_outside by exact Hd.
  apply encode_flat.
Qed.

Lemma border_is_flat_witness :
  exists img,
    generate_normal_map 5 1 0 (fun _ => 0) = Ok img /\
    pixel_dist2 5 4 2 > 1 /\
    getpixel img 4 2 = (127, 127, 255, 255)%Z.
Proof.
  destruct (generate_ok 5 1 0 (fun _ => 0)) as (img & Hg & _); [lia|].
  exists img. split; [exact Hg|].
  apply (border_is_flat 5 1 (fun _ => 0) img 4 2 Hg); [lia|lia|].
  right. left. reflexivity.
Defined.

(** ** The z component and the blue channel *)

Lemma normalize_z_nonneg v : 0 <= snd v -> 0 <= snd (normalize v).
Proof.
  intros Hz. destruct (Rgt_dec (vnorm v) 1e-6) as [H|H].
  - rewrite normalize_big by exact H. destruct v as [[vx vy] vz].
    cbn [snd] in *. apply Rmult_le_pos; [exact Hz|].
    apply Rlt_le, Rinv_0_lt_compat. lra.
  - rewrite normalize_small by exact H. exact Hz.
Qed.

Lemma pre_noise_z_nonneg s dx dy : 0 <= snd (pre_noise s dx dy).
Proof.
  destruct (Rle_dec (dx * dx + dy * dy) 1) as [H|H].
  - rewrite pre_noise_inside by exact H. apply normalize_z_nonneg.
    unfold raw_vector. cbn [snd]. apply sqrt_pos.
  - rewrite pre_noise_outside by lra. cbn [snd]. lra.
Qed.

Lemma add_noise_z ns v u1 u2 : snd (add_noise ns v u1 u2) = snd v.
Proof. destruct v as [[vx vy] vz]. reflexivity. Qed.

Lemma final_normal_z_nonneg s ns dx dy u1 u2 :
  0 <= snd (final_normal s ns dx dy u1 u2).
Proof.
  unfold final_normal. apply normalize_z_nonneg.
  rewrite add_noise_z. apply pre_noise_z_nonneg.
Qed.

Lemma encode_channel_nonneg c : 0 <= c <= 1 -> (127 <= encode_channel c)%Z.
Proof.
  intros Hc. unfold encode_channel. rewrite py_int_floor by lra.
  apply Zfloor_lub. simpl. lra.
Qed.

Lemma encode_channel_nonpos c : -1 <= c <= 0 -> (encode_channel c <= 127)%Z.
Proof.
  intros Hc. unfold encode_channel. rewrite py_int_floor by lra.
  pose proof (Zfloor_bound ((c * 0.5 + 0.5) * 255)) as [Hlo _].
  assert (H : (Zfloor ((c * 0.5 + 0.5) * 255) < 128)%Z)
    by (apply lt_IZR; lra).
  lia.
Qed.

(** X6. The encoded normal never points into the surface: whatever the
    strength, the noise scale and the values drawn, the final z component
    is non-negative and the stored B is at least 127. *)
Theorem blue_at_least_127 size strength noise_scale rng img x y :
  generate_normal_map size strength noise_scale rng = Ok img ->
  (x < size)%nat -> (y < size)%nat ->
  0 <= snd (pixel_final_normal size strength noise_scale rng x y) /\
  let '(_, _, b, _) := getpixel img x y in (127 <= b <= 255)%Z.
Proof.
  intros Hg Hx Hy. rewrite (getpixel_encode _ _ _ _ _ _ _ Hg Hx Hy).
  unfold pixel_final_normal.
  pose proof (final_normal_z_nonneg strength noise_scale
                (pixel_dx size x) (pixel_dy size y)
                (rng (draw_index size x y))
                (rng (S (draw_index size x y)))) as Hz.
  pose proof (final_normal_components strength noise_scale
                (pixel_dx size x) (pixel_dy size y)
                (rng (draw_index size x y))
                (rng (S (draw_index size x y)))) as Hc.
  destruct (final_normal _ _ _ _ _ _) as [[nx ny] nz].
  cbn [snd encode] in *. destruct Hc as (_ & _ & Hnz).
  split; [exact Hz|].
  pose proof (encode_channel_nonneg nz (conj Hz (proj2 Hnz))).
  pose proof (encode_channel_range nz Hnz). lia.
Qed.

Lemma blue_at_least_127_witness :
  exists img,
    generate_normal_map 4 7 100 (fun _ => 1 / 4) = Ok img /\
    let '(_, _, b, _) := getpixel img 1 2 in (127 <= b <= 255)%Z.
Proof.
  destruct (generate_ok 4 7 100 (fun _ => 1 / 4)) as (img & Hg & _); [lia|].
  exists img. split; [exact Hg|].
  apply (blue_at_least_127 4 7 100 (fun _ => 1 / 4) img 1 2 Hg); lia.
Defined.

(** ** The second normalisation guard *)

Lemma sumsq_small_components vx vy vz :
  vnorm (vx, vy, vz) <= 1e-6 ->
  (- (1e-6) <= vx <= 1e-6) /\ (- (1e-6) <= vy <= 1e-6) /\
  (- (1e-6) <= vz <= 1e-6).
Proof.
  intros H. pose proof (vnorm_sqr (vx, vy, vz)) as Hs.
  pose proof (vnorm_nonneg (vx, vy, vz)) as H0.
  set (l := vnorm _) in *. cbn [sumsq] in Hs.
  assert (Hl : l * l <= 1e-6 * 1e-6) by nra.
  repeat split; nra.
Qed.

Lemma encode_channel_tiny c :
  - (1e-6) <= c <= 1e-6 -> encode_channel c = 127%Z.
Proof. intros Hc. unfold encode_channel. apply py_int_eq; lra. Qed.

(** X7. Every stored pixel either encodes a vector of length exactly 1, or
    the final guard was not passed: then the pixel is the mid-grey
    (127, 127, 127, 255), the pre-noise z component is at most 1e-6 and
    the pixel lies on the disc.  Off the disc the encoded vector always
    has length 1, whatever the noise. *)
Theorem unit_or_mid_grey size strength noise_scale rng img x y :
  generate_normal_map size strength noise_scale rng = Ok img ->
  (x < size)%nat -> (y < size)%nat ->
  vnorm (pixel_final_normal size strength noise_scale rng x y) = 1 \/
  (getpixel img x y = (127, 127, 127, 255)%Z /\
   vnorm (pixel_final_normal size strength noise_scale rng x y) <= 1e-6 /\
   snd (pixel_pre_noise size strength x y) <= 1e-6 /\
   pixel_dist2 size x y <= 1).
Proof.
  intros Hg Hx Hy. rewrite (getpixel_encode _ _ _ _ _ _ _ Hg Hx Hy).
  unfold pixel_final_normal, final_normal.
  fold (pixel_pre_noise size strength x y).
  set (m := add_noise noise_scale (pixel_pre_noise size strength x y) _ _).
  destruct (Rgt_dec (vnorm m) 1e-6) as [H|H].
  - left. apply vnorm_one, normalize_sumsq, H.
  - right. rewrite normalize_small by exact H.
    assert (Hm : vnorm m <= 1e-6) by lra.
    assert (Hz : snd m = snd (pixel_pre_noise size strength x y))
      by apply add_noise_z.
    destruct m as [[mx my] mz].
    destruct (sumsq_small_components mx my mz Hm) as (Hmx & Hmy & Hmz).
    cbn [snd] in Hz.
    split; [|split; [exact Hm|split; [lra|]]].
    + unfold encode. rewrite !encode_channel_tiny by assumption. reflexivity.
    + destruct (Rle_dec (pixel_dist2 size x y) 1) as [Hd|Hd]; [exact Hd|].
      exfalso. unfold pixel_pre_noise in Hz.
      rewrite pre_noise_outside in Hz by (unfold pixel_dist2 in Hd; lra).
      cbn [snd] in Hz. lra.
Qed.

Lemma unit_or_mid_grey_witness :
  exists img,
    generate_normal_map 3 0.6 2 rng_17_24 = Ok img /\
    (vnorm (pixel_final_normal 3 0.6 2 rng_17_24 0 0) = 1 \/
     (getpixel img 0 0 = (127, 127, 127, 255)%Z /\
      vnorm (pixel_final_normal 3 0.6 2 rng_17_24 0 0) <= 1e-6 /\
      snd (pixel_pre_noise 3 0.6 0 0) <= 1e-6 /\
      pixel_dist2 3 0 0 <= 1)).
Proof.
  destruct (generate_ok 3 0.6 2 rng_17_24) as (img & Hg & _); [lia|].
  exists img. split; [exact Hg|].
  apply (unit_or_mid_grey 3 0.6 2 rng_17_24 img 0 0 Hg); lia.
Defined.

Lemma rim_of_41_dx : pixel_dx 41 39 = 1.
Proof.
  unfold pixel_dx. rewrite radius_eq. unfold cx.
  rewrite !INR_IZR_INZ.
  change (Z.of_nat 41) with 41%Z. change (Z.of_nat 39) with 39%Z. lra.
Qed.

Lemma rim_of_41_dy : pixel_dy 41 20 = 0.
Proof.
  unfold pixel_dy. rewrite radius_eq. unfold cy.
  rewrite !INR_IZR_INZ.
  change (Z.of_nat 41) with 41%Z. change (Z.of_nat 20) with 20%Z. lra.
Qed.

Lemma clamp_strength_high s : 1 <= s -> clamp_strength s = 1.
Proof.
  intros Hs. unfold clamp_strength, Rmin, Rmax.
  repeat (destruct (Rle_dec _ _)); lra.
Qed.

Lemma clamp_strength_low s : s <= 0 -> clamp_strength s = 0.
Proof.
  intros Hs. unfold clamp_strength, Rmin, Rmax.
  repeat (destruct (Rle_dec _ _)); lra.
Qed.

Lemma rim_of_41_pre_noise : pixel_pre_noise 41 1 39 20 = (1, 0, 0).
Proof.
  unfold pixel_pre_noise. rewrite rim_of_41_dx, rim_of_41_dy.
  rewrite pre_noise_inside by lra.
  assert (Hraw : raw_vector 1 1 0 = (1, 0, 0)).
  { unfold raw_vector, groove_inner.
    rewrite clamp_strength_high by lra.
    replace (1 * 1 + 0 * 0) with 1 by ring.
    rewrite math_pow_three_halves, sqrt_1 by lra.
    rewrite Rmax_left by lra. rewrite sqrt_0.
    rewrite Rmult_1_r, Rmult_0_l. reflexivity. }
  rewrite Hraw. apply normalize_unit, vnorm_one. cbn [sumsq]. ring.
Qed.

(** X8. Unlike the first guard, the second can fail.  On a 41 by 41 canvas
    pixel (39, 20) lies exactly on the rim ([dist2 = 1]); at strength 1 its
    pre-noise vector is (1, 0, 0), and with noise scale 2 and draws 0 and
    1/2 the noise cancels it.  The zero vector is encoded as it is, as
    (127, 127, 127, 255). *)
Theorem final_guard_can_fail :
  exists img,
    generate_normal_map 41 1 2 rng_alternating = Ok img /\
    pixel_dist2 41 39 20 = 1 /\
    pixel_pre_noise 41 1 39 20 = (1, 0, 0) /\
    pixel_final_normal 41 1 2 rng_alternating 39 20 = (0, 0, 0) /\
    getpixel img 39 20 = (127, 127, 127, 255)%Z.
Proof.
  destruct (generate_ok 41 1 2 rng_alternating) as (img & Hg & _); [lia|].
  exists img. split; [exact Hg|].
  split; [unfold pixel_dist2; rewrite rim_of_41_dx, rim_of_41_dy; ring|].
  split; [apply rim_of_41_pre_noise|].
  assert (Hn : pixel_final_normal 41 1 2 rng_alternating 39 20 = (0, 0, 0)).
  { unfold pixel_final_normal, final_normal.
    fold (pixel_pre_noise 41 1 39 20). rewrite rim_of_41_pre_noise.
    assert (Hi : draw_index 41 39 20 = 1718%nat) by (vm_compute; reflexivity).
    rewrite Hi.
    assert (H0 : rng_alternating 1718 = 0)
      by (unfold rng_alternating;
          replace (Nat.even 1718) with true by (vm_compute; reflexivity);
          reflexivity).
    assert (H1 : rng_alternating 1719 = 1 / 2)
      by (unfold rng_alternating;
          replace (Nat.even 1719) with false by (vm_compute; reflexivity);
          reflexivity).
    rewrite H0, H1. unfold add_noise.
    replace (1 + (0 - 0.5) * 2) with 0 by lra.
    replace (0 + (1 / 2 - 0.5) * 2) with 0 by lra.
    apply normalize_small. cbn [vnorm].
    replace (0 * 0 + 0 * 0 + 0 * 0) with 0 by ring. rewrite sqrt_0. lra. }
  split; [exact Hn|].
  rewrite (getpixel_encode _ _ _ _ _ _ _ Hg) by lia. rewrite Hn.
  unfold encode. rewrite !encode_channel_zero. reflexivity.
Qed.

(** ** Strength *)

Lemma clamp_strength_idem s : clamp_strength (clamp_strength s) = clamp_strength s.
Proof.
  pose proof (clamp_strength_range s) as H.
  unfold clamp_strength at 1. unfold Rmin, Rmax.
  repeat (destruct (Rle_dec _ _)); lra.
Qed.

(** X9. A strength outside [0, 1] behaves as the nearest end of the interval:
    a run with [strength] and a run with its clamped value have the same
    outcome. *)
Theorem strength_acts_through_clamp size strength noise_scale rng :
  0 <= clamp_strength strength <= 1 /\
  generate_normal_map size strength noise_scale rng =
  generate_normal_map size (clamp_strength strength) noise_scale rng.
Proof.
  split; [apply clamp_strength_range|].
  apply generate_ext. intros dx dy n.
  rewrite (pre_noise_clamp strength (clamp_strength strength));
    [reflexivity|].
  symmetry. apply clamp_strength_idem.
Qed.

Lemma pre_noise_zero_strength s dx dy : s <= 0 -> pre_noise s dx dy = (0, 0, 1).
Proof.
  intros Hs. destruct (Rle_dec (dx * dx + dy * dy) 1) as [H|H].
  - rewrite pre_noise_inside by exact H.
    assert (Hraw : raw_vector s dx dy = (0, 0, 1)).
    { unfold raw_vector, groove_inner. rewrite clamp_strength_low by exact Hs.
      rewrite !Rmult_0_r, Rminus_0_r, Rmax_right, sqrt_1 by lra.
      reflexivity. }
    rewrite Hraw. apply normalize_unit, vnorm_one. cbn [sumsq]. ring.
  - apply pre_noise_outside. lra.
Qed.

(** X10. With a strength of zero or less and no noise there is no groove at
    all: every pixel of the canvas is the flat normal. *)
Theorem no_strength_no_groove size strength rng img x y :
  strength <= 0 ->
  generate_normal_map size strength 0 rng = Ok img ->
  (x < size)%nat -> (y < size)%nat ->
  getpixel img x y = (127, 127, 255, 255)%Z.
Proof.
  intros Hs Hg Hx Hy. rewrite (getpixel_no_noise _ _ _ _ _ _ Hg Hx Hy).
  unfold pixel_pre_noise. rewrite pre_noise_zero_strength by exact Hs.
  apply encode_flat.
Qed.

Lemma no_strength_no_groove_witness :
  exists img,
    generate_normal_map 5 (-3) 0 (fun _ => 1 / 4) = Ok img /\
    getpixel img 3 2 = (127, 127, 255, 255)%Z.
Proof.
  destruct (generate_ok 5 (-3) 0 (fun _ => 1 / 4)) as (img & Hg & _); [lia|].
  exists img. split; [exact Hg|].
  apply (no_strength_no_groove 5 (-3) (fun _ => 1 / 4) img 3 2); [lra|exact Hg|lia|lia].
Defined.

(** ** Symmetries of the noise-free texture *)

Lemma vnorm_swap_xy v : vnorm (swap_xy v) = vnorm v.
Proof.
  destruct v as [[vx vy] vz]. cbn [swap_xy vnorm].
  rewrite (Rplus_comm (vy * vy)). reflexivity.
Qed.

Lemma normalize_swap_xy v : normalize (swap_xy v) = swap_xy (normalize v).
Proof.
  destruct (Rgt_dec (vnorm v) 1e-6) as [H|H].
  - rewrite !normalize_big by (rewrite ?vnorm_swap_xy; exact H).
    rewrite vnorm_swap_xy. destruct v as [[vx vy] vz]. reflexivity.
  - rewrite !normalize_small by (rewrite ?vnorm_swap_xy; exact H).
    reflexivity.
Qed.

Lemma pre_noise_swap s a b : pre_noise s b a = swap_xy (pre_noise s a b).
Proof.
  unfold pre_noise, raw_vector. rewrite (Rplus_comm (b * b)).
  destruct (Rle_dec (a * a + b * b) 1); [|reflexivity].
  apply (normalize_swap_xy (a * clamp_strength s, b * clamp_strength s, _)).
Qed.

Lemma encode_swap v : encode (swap_xy v) = swap_rg (encode v).
Proof. destruct v as [[vx vy] vz]. reflexivity. Qed.

(** X11. Without noise the texture is symmetric about the main diagonal with
    the red and green channels exchanged: pixel [(y, x)] is pixel [(x, y)]
    with R and G swapped. *)
Theorem transpose_swaps_red_green size strength rng img x y :
  generate_normal_map size strength 0 rng = Ok img ->
  (x < size)%nat -> (y < size)%nat ->
  getpixel img y x = swap_rg (getpixel img x y).
Proof.
  intros Hg Hx Hy.
  rewrite (getpixel_no_noise _ _ _ _ _ _ Hg Hy Hx).
  rewrite (getpixel_no_noise _ _ _ _ _ _ Hg Hx Hy).
  unfold pixel_pre_noise.
  change (pixel_dy size x) with (pixel_dx size x).
  change (pixel_dy size y) with (pixel_dx size y).
  rewrite pre_noise_swap. apply encode_swap.
Qed.

Lemma transpose_swaps_red_green_witness :
  exists img,
    generate_normal_map 6 0.8 0 (fun _ => 0) = Ok img /\
    getpixel img 2 4 = swap_rg (getpixel img 4 2).
Proof.
  destruct (generate_ok 6 0.8 0 (fun _ => 0)) as (img & Hg & _); [lia|].
  exists img. split; [exact Hg|].
  apply (transpose_swaps_red_green 6 0.8 (fun _ => 0) img 4 2 Hg); lia.
Defined.

Lemma pixel_dx_mirror size x :
  (x < size)%nat -> pixel_dx size (size - 1 - x) = - pixel_dx size x.
Proof.
  intros Hx. unfold pixel_dx, cx.
  rewrite !minus_INR by lia. simpl (INR 1).
  set (a := INR size). set (b := INR x). set (r := radius size).
  replace (a - 1 - b - (a - 1) / 2.0) with (- (b - (a - 1) / 2.0)) by lra.
  unfold Rdiv. ring.
Qed.

Lemma vnorm_neg_x v : vnorm (neg_x v) = vnorm v.
Proof.
  destruct v as [[vx vy] vz]. cbn [neg_x vnorm].
  replace (- vx * - vx) with (vx * vx) by ring. reflexivity.
Qed.

Lemma normalize_neg_x v : normalize (neg_x v) = neg_x (normalize v).
Proof.
  destruct (Rgt_dec (vnorm v) 1e-6) as [H|H].
  - rewrite !normalize_big by (rewrite ?vnorm_neg_x; exact H).
    rewrite vnorm_neg_x. destruct v as [[vx vy] vz]. cbn [neg_x].
    replace (- vx / vnorm (vx, vy, vz)) with (- (vx / vnorm (vx, vy, vz)))
      by (unfold Rdiv; ring).
    reflexivity.
  - rewrite !normalize_small by (rewrite ?vnorm_neg_x; exact H).
    reflexivity.
Qed.

Lemma pre_noise_neg s a b : pre_noise s (- a) b = neg_x (pre_noise s a b).
Proof.
  unfold pre_noise, raw_vector.
  replace (- a * - a + b * b) with (a * a + b * b) by ring.
  replace (- a * clamp_strength s) with (- (a * clamp_strength s)) by ring.
  destruct (Rle_dec (a * a + b * b) 1).
  - apply (normalize_neg_x (a * clamp_strength s, b * clamp_strength s, _)).
  - cbn [neg_x]. replace (- 0) with 0 by ring. reflexivity.
Qed.

(** Truncation breaks the exact antisymmetry of the encoding: the codes
    of [c] and [- c] add up to 254, or to 255 when the scaled value is an
    integer. *)
Lemma encode_channel_opposite c :
  -1 <= c <= 1 ->
  (encode_channel (- c) + encode_channel c = 254 \/
   encode_channel (- c) + encode_channel c = 255)%Z.
Proof.
  intros Hc. unfold encode_channel. rewrite !py_int_floor by lra.
  pose proof (Zfloor_bound ((c * 0.5 + 0.5) * 255)) as [Hlo Hhi].
  pose proof (Zfloor_bound ((- c * 0.5 + 0.5) * 255)) as [Hlo' Hhi'].
  set (z := Zfloor ((c * 0.5 + 0.5) * 255)) in *.
  set (z' := Zfloor ((- c * 0.5 + 0.5) * 255)) in *.
  assert (H1 : (z' + z < 256)%Z) by (apply lt_IZR; rewrite plus_IZR; lra).
  assert (H2 : (253 < z' + z)%Z) by (apply lt_IZR; rewrite plus_IZR; lra).
  lia.
Qed.

(** X12. Without noise, a pixel and its mirror image across the vertical axis
    have the same G and B, and their R values add up to 254 or 255. *)
Theorem mirror_keeps_green_blue size strength rng img x y :
  generate_normal_map size strength 0 rng = Ok img ->
  (x < size)%nat -> (y < size)%nat ->
  let '(r, g, b, _) := getpixel img x y in
  let '(r', g', b', _) := getpixel img (size - 1 - x) y in
  g' = g /\ b' = b /\ (r' + r = 254 \/ r' + r = 255)%Z.
Proof.
  intros Hg Hx Hy.
  assert (Hx' : (size - 1 - x < size)%nat) by lia.
  rewrite (getpixel_no_noise _ _ _ _ _ _ Hg Hx Hy).
  rewrite (getpixel_no_noise _ _ _ _ _ _ Hg Hx' Hy).
  unfold pixel_pre_noise. rewrite pixel_dx_mirror by exact Hx.
  rewrite pre_noise_neg.
  pose proof (pre_noise_unit strength (pixel_dx size x) (pixel_dy size y))
    as Hu.
  pose proof (vnorm_sqr (pre_noise strength (pixel_dx size x)
                           (pixel_dy size y))) as Hs.
  rewrite Hu in Hs.
  destruct (pre_noise _ _ _) as [[vx vy] vz].
  destruct (sumsq_le_one_components vx vy vz) as (Hvx & _); [lra|].
  cbn [neg_x encode].
  split; [reflexivity|]. split; [reflexivity|].
  apply encode_channel_opposite, Hvx.
Qed.

Lemma mirror_keeps_green_blue_witness :
  exists img,
    generate_normal_map 6 0.8 0 (fun _ => 0) = Ok img /\
    let '(r, g, b, _) := getpixel img 4 4 in
    let '(r', g', b', _) := getpixel img 1 4 in
    g' = g /\ b' = b /\ (r' + r = 254 \/ r' + r = 255)%Z.
Proof.
  destruct (generate_ok 6 0.8 0 (fun _ => 0)) as (img & Hg & _); [lia|].
  exists img. split; [exact Hg|].
  apply (mirror_keeps_green_blue 6 0.8 (fun _ => 0) img 4 4 Hg); lia.
Defined.

(** ** Decoding a stored pixel *)

(** X13. Each decoded component falls short of the encoded one by less than
    2/255 and never exceeds it. *)
Theorem decoding_errs_downward size strength noise_scale rng img x y :
  generate_normal_map size strength noise_scale rng = Ok img ->
  (x < size)%nat -> (y < size)%nat ->
  let '(nx, ny, nz) := pixel_final_normal size strength noise_scale rng x y in
  let '(ux, uy, uz) := decode (getpixel img x y) in
  0 <= nx - ux < 2 / 255 /\
  0 <= ny - uy < 2 / 255 /\
  0 <= nz - uz < 2 / 255.
Proof.
  intros Hg Hx Hy. rewrite (getpixel_encode _ _ _ _ _ _ _ Hg Hx Hy).
  unfold pixel_final_normal.
  pose proof (final_normal_components strength noise_scale
                (pixel_dx size x) (pixel_dy size y)
                (rng (draw_index size x y))
                (rng (S (draw_index size x y)))) as H.
  destruct (final_normal _ _ _ _ _ _) as [[nx ny] nz].
  destruct H as (Hnx & Hny & Hnz). cbn [encode decode].
  repeat split; apply decode_encode_error; assumption.
Qed.

Lemma decoding_errs_downward_witness :
  exists img,
    generate_normal_map 3 0.6 2 rng_17_24 = Ok img /\
    let '(ux, uy, uz) := decode (getpixel img 0 0) in
    0 <= 5 / 13 - ux < 2 / 255 /\
    0 <= 0 - uy < 2 / 255 /\
    0 <= 12 / 13 - uz < 2 / 255.
Proof.
  destruct (generate_ok 3 0.6 2 rng_17_24) as (img & Hg & _); [lia|].
  exists img. split; [exact Hg|].
  assert (H0 : (0 < 3)%nat) by lia.
  pose proof (decoding_errs_downward 3 0.6 2 rng_17_24 img 0 0 Hg H0 H0) as H.
  rewrite corner_of_3_normal in H. exact H.
Defined.

(** ** Direction of the tilt *)

Lemma normalize_scale v :
  exists c, 0 < c /\
    normalize v = (let '(vx, vy, vz) := v in (c * vx, c * vy, c * vz)).
Proof.
  destruct (Rgt_dec (vnorm v) 1e-6) as [H|H].
  - exists (/ vnorm v). split; [apply Rinv_0_lt_compat; lra|].
    rewrite normalize_big by exact H. destruct v as [[vx vy] vz].
    unfold Rdiv. rewrite !(Rmult_comm (/ _)). reflexivity.
  - exists 1. split; [lra|].
    rewrite normalize_small by exact H. destruct v as [[vx vy] vz].
    rewrite !Rmult_1_l. reflexivity.
Qed.

Lemma pre_noise_signs s dx dy :
  let '(vx, vy, _) := pre_noise s dx dy in
  (0 <= dx -> 0 <= vx) /\ (dx <= 0 -> vx <= 0) /\
  (0 <= dy -> 0 <= vy) /\ (dy <= 0 -> vy <= 0).
Proof.
  destruct (Rle_dec (dx * dx + dy * dy) 1) as [H|H].
  - rewrite pre_noise_inside by exact H.
    destruct (normalize_scale (raw_vector s dx dy)) as (c & Hc & ->).
    unfold raw_vector. pose proof (clamp_strength_range s) as Hk.
    set (k := clamp_strength s) in *.
    assert (Hck : 0 <= c * k) by nra.
    replace (c * (dx * k)) with (c * k * dx) by ring.
    replace (c * (dy * k)) with (c * k * dy) by ring.
    repeat split; intros Hd; nra.
  - rewrite pre_noise_outside by lra. repeat split; intros _; lra.
Qed.

Lemma pixel_dx_sign size x :
  (2 <= size)%nat ->
  ((size - 1 <= 2 * x)%nat -> 0 <= pixel_dx size x) /\
  ((2 * x <= size - 1)%nat -> pixel_dx size x <= 0).
Proof.
  intros Hs. pose proof (radius_pos size Hs) as Hr.
  apply Rinv_0_lt_compat in Hr.
  unfold pixel_dx, cx, Rdiv. set (ir := / radius size) in *.
  split; intros H; apply le_INR in H;
    rewrite mult_INR, minus_INR in H by lia; simpl in H; nra.
Qed.

(** X14. Without noise the normal leans away from the centre: in the right
    half of the canvas R is at least 127 and in the left half at most 127;
    likewise G in the lower and upper halves. *)
Theorem normal_leans_outward size strength rng img x y :
  generate_normal_map size strength 0 rng = Ok img ->
  (x < size)%nat -> (y < size)%nat ->
  let '(r, g, _, _) := getpixel img x y in
  ((size - 1 <= 2 * x)%nat -> (127 <= r)%Z) /\
  ((2 * x <= size - 1)%nat -> (r <= 127)%Z) /\
  ((size - 1 <= 2 * y)%nat -> (127 <= g)%Z) /\
  ((2 * y <= size - 1)%nat -> (g <= 127)%Z).
Proof.
  intros Hg Hx Hy.
  assert (Hs : (2 <= size)%nat).
  { destruct (Nat.eq_dec size 1%nat) as [E|NE]; [|lia].
    rewrite generate_raise in Hg by exact E. discriminate. }
  rewrite (getpixel_no_noise _ _ _ _ _ _ Hg Hx Hy). unfold pixel_pre_noise.
  destruct (pixel_dx_sign size x Hs) as [Hxp Hxn].
  destruct (pixel_dx_sign size y Hs) as [Hyp Hyn].
  change (pixel_dx size y) with (pixel_dy size y) in Hyp, Hyn.
  pose proof (pre_noise_signs strength (pixel_dx size x) (pixel_dy size y))
    as Hsg.
  pose proof (pre_noise_unit strength (pixel_dx size x) (pixel_dy size y))
    as Hu.
  pose proof (vnorm_sqr (pre_noise strength (pixel_dx size x)
                           (pixel_dy size y))) as Hq.
  rewrite Hu in Hq.
  destruct (pre_noise _ _ _) as [[vx vy] vz].
  destruct (sumsq_le_one_components vx vy vz) as (Hvx & Hvy & _); [lra|].
  destruct Hsg as (S1 & S2 & S3 & S4). cbn [encode].
  repeat split; intros H.
  - apply encode_channel_nonneg. split; [apply S1, Hxp, H|lra].
  - apply encode_channel_nonpos. split; [lra|apply S2, Hxn, H].
  - apply encode_channel_nonneg. split; [apply S3, Hyp, H|lra].
  - apply encode_channel_nonpos. split; [lra|apply S4, Hyn, H].
Qed.

Lemma normal_leans_outward_witness :
  exists img,
    generate_normal_map 6 0.8 0 (fun _ => 0) = Ok img /\
    let '(r, g, _, _) := getpixel img 4 1 in (127 <= r)%Z /\ (g <= 127)%Z.
Proof.
  destruct (generate_ok 6 0.8 0 (fun _ => 0)) as (img & Hg & _); [lia|].
  exists img. split; [exact Hg|].
  assert (Hx : (4 < 6)%nat) by lia. assert (Hy : (1 < 6)%nat) by lia.
  pose proof (normal_leans_outward 6 0.8 (fun _ => 0) img 4 1 Hg Hx Hy) as H.
  destruct (getpixel img 4 1) as [[[r g] b] a].
  destruct H as (H1 & _ & _ & H4).
  split; [apply H1; simpl; lia|apply H4; simpl; lia].
Defined.

(** ** The script entry point *)

(** X15. Run as a script, the program never raises: for every random source
    and every prior state of the directory it stores a 512 by 512 fully
    opaque canvas under [HoleNormal.png], leaves every other file as it
    was, and appends the one line [Saved HoleNormal.png] to the output. *)
Theorem main_saves_the_texture rng w :
  exists img w',
    main rng w = Ok w' /\
    generate_normal_map 512 0.6 0.02 rng = Ok img /\
    files w' !! "HoleNormal.png"%string = Some img /\
    width img = 512%nat /\ height img = 512%nat /\
    (forall x y, (x < 512)%nat -> (y < 512)%nat ->
       alpha (getpixel img x y) = 255%Z) /\
    (forall name, name <> "HoleNormal.png"%string ->
       files w' !! name = files w !! name) /\
    stdout w' = stdout w ++ ["Saved HoleNormal.png"%string].
Proof.
  destruct (generate_ok 512 0.6 0.02 rng) as (img & Hg & Hw & Hh & _); [lia|].
  exists img. eexists. unfold main. rewrite Hg. cbn [bind].
  split; [reflexivity|]. split; [reflexivity|].
  cbn [files stdout Image_save print].
  split; [apply lookup_insert_eq|].
  do 2 (split; [assumption|]).
  split; [|split; [|reflexivity]].
  - intros x y Hx Hy. rewrite (getpixel_encode _ _ _ _ _ _ _ Hg Hx Hy).
    destruct (pixel_final_normal _ _ _ _ _ _) as [[nx ny] nz]. reflexivity.
  - intros name Hn. apply lookup_insert_ne. congruence.
Qed.
